(** * Threema Web: the [bufferToUrl] filter and the message-media controller

    A shallow embedding of

    - the [bufferToUrl] filter of [src/filters.ts], and
    - the controller of the message-media directive
      ([thumbnailInView], [download] and the callbacks they register),

    together with the properties of the media-attachment lifecycle that
    the specification states about them. *)

From Stdlib Require Import List String Ascii NArith ZArith PeanoNat Bool Lia.
From Stdlib Require Import DecimalString DecimalN.
From Stdlib.Strings Require Import Byte.
Import ListNotations.
Local Open Scope string_scope.

(** ** JavaScript values that may be absent *)

Module Js.

(** A value that JavaScript code tests against [undefined] and [null]. *)
Inductive Nullable (A : Type) : Type :=
| Undefined
| Null
| Val (a : A).

Arguments Undefined {A}.
Arguments Null {A}.
Arguments Val {A} a.

End Js.

(** ** Base64, as the browser's [btoa] / [atob] compute it *)

Module Base64.

Local Open Scope N_scope.

Definition alphabet : list ascii :=
  list_ascii_of_string
    "ABCDEFGHIJKLMNOPQRSTUVWXYZabcdefghijklmnopqrstuvwxyz0123456789+/".

Definition pad : ascii := "="%char.

(** The character of a six-bit group. *)
Definition digit (n : N) : ascii := nth (N.to_nat n) alphabet pad.

Fixpoint index_from (i : N) (c : ascii) (l : list ascii) : option N :=
  match l with
  | [] => None
  | x :: l' => if Ascii.eqb c x then Some i else index_from (N.succ i) c l'
  end.

(** The six-bit group of a character of the alphabet. *)
Definition value (c : ascii) : option N := index_from 0 c alphabet.

(** Three octets become four six-bit groups; a last group of one or two
    octets is filled with zero bits and padded with [=]. *)
Fixpoint encode (l : list N) : list ascii :=
  match l with
  | [] => []
  | [a] =>
      [digit (a / 4); digit ((a mod 4) * 16); pad; pad]
  | [a; b] =>
      [digit (a / 4); digit ((a mod 4) * 16 + b / 16);
       digit ((b mod 16) * 4); pad]
  | a :: b :: c :: rest =>
      digit (a / 4) :: digit ((a mod 4) * 16 + b / 16)
        :: digit ((b mod 16) * 4 + c / 64) :: digit (c mod 64)
        :: encode rest
  end.

(** The octets of one group of four characters. *)
Definition quad (c0 c1 c2 c3 : ascii) : option (list N) :=
  match value c0, value c1 with
  | Some s0, Some s1 =>
      if Ascii.eqb c2 pad then
        if Ascii.eqb c3 pad then Some [s0 * 4 + s1 / 16] else None
      else
        match value c2 with
        | Some s2 =>
            if Ascii.eqb c3 pad then
              Some [s0 * 4 + s1 / 16; (s1 mod 16) * 16 + s2 / 4]
            else
              match value c3 with
              | Some s3 =>
                  Some [s0 * 4 + s1 / 16; (s1 mod 16) * 16 + s2 / 4;
                        (s2 mod 4) * 64 + s3]
              | None => None
              end
        | None => None
        end
  | _, _ => None
  end.

(** Decoding fails on a character outside the alphabet, on a length that
    is no multiple of four, and on padding before the last group. *)
Fixpoint decode (l : list ascii) : option (list N) :=
  match l with
  | [] => Some []
  | c0 :: c1 :: c2 :: c3 :: rest =>
      match quad c0 c1 c2 c3, decode rest with
      | Some octets, Some tl =>
          match rest with
          | [] => Some octets
          | _ :: _ =>
              if (List.length octets =? 3)%nat then Some (octets ++ tl)%list
              else None
          end
      | _, _ => None
      end
  | _ => None
  end.

(** The six-bit groups. *)
Definition sextets : list N := map N.of_nat (seq 0 64).

(** [btoa] takes a binary string: one character per octet. *)
Definition btoa (binary : string) : string :=
  string_of_list_ascii
    (encode (map N_of_ascii (list_ascii_of_string binary))).

(** [atob] on canonical base64 text, padded to whole groups of four, as
    [btoa] writes it; [None] is the exception that [atob] throws. The
    browser's [atob] also takes text whose padding is left off and
    skips white space: such text is refused here, and nothing below
    decodes any text but the output of [btoa]. *)
Definition atob (text : string) : option string :=
  match decode (list_ascii_of_string text) with
  | Some octets => Some (string_of_list_ascii (map ascii_of_N octets))
  | None => None
  end.

End Base64.

(** ** The data the directive is given *)

(** An [ArrayBuffer]: its octets. *)
Definition ArrayBuffer : Type := list byte.

(** The declarations of [threema.Receiver], [threema.Message],
    [threema.BlobInfo] and their parts are not among the sources; the
    records hold the fields the sources read. A field declared optional is
    an [option]: [None] is [undefined]. *)
Record Receiver : Type := mkReceiver {
  receiver_type : string;
  receiver_id : string;
}.

Record FileInfo : Type := mkFileInfo {
  file_type : string;
  file_name : string;
}.

Record Thumbnail : Type := mkThumbnail {
  img : option ArrayBuffer;
  width : N;
  height : N;
}.

(** The coordinates are only handed on, never computed with. *)
Record LocationInfo : Type := mkLocationInfo {
  lat : Z;
  lon : Z;
}.

Record Message : Type := mkMessage {
  msg_id : string;
  msg_type : string;
  msg_temporaryId : Js.Nullable string;
  msg_caption : option string;
  msg_file : option FileInfo;
  msg_thumbnail : option Thumbnail;
  msg_location : option LocationInfo;
}.

Record BlobInfo : Type := mkBlobInfo {
  buffer : ArrayBuffer;
  mimetype : string;
  filename : string;
}.

(** ** Effects on the collaborators of the directive *)

(** The value a promise of [webClientService] is rejected with: the
    content path compares it with two strings. *)
Inductive Reason : Type :=
| ReasonString (s : string)
| ReasonOther.

(** The alert that [$mdDialog.alert()] builds; the three texts are the
    keys handed to [$translate.instant]. *)
Record Alert : Type := mkAlert {
  alert_title : string;
  alert_textContent : string;
  alert_ok : string;
}.

(** The calls that leave the directive, in the order they are made. *)
Inductive Effect : Type :=
| LogDebug (text : string)
| LogWarn (text : string) (about : string)
| LogError (tag : string) (text : string) (buf : Js.Nullable ArrayBuffer)
| RequestThumbnail (receiver : Receiver) (message : Message)
| RequestBlob (messageId : string) (receiver : Receiver)
| SetMedia (buf : ArrayBuffer) (name mime caption : string)
| SaveAs (buf : ArrayBuffer) (name : string)
| ShowAudioDialog (buf : ArrayBuffer)
| ShowAlert (a : Alert).

(** ** The [bufferToUrl] filter *)

Module Filters.

(** What the filter returns: a plain string, or the value
    [$sce.trustAsResourceUrl] wraps a string in. *)
Inductive Resource : Type :=
| PlainUrl (uri : string)
| TrustedResourceUrl (uri : string).

Definition resource_uri (r : Resource) : string :=
  match r with
  | PlainUrl u | TrustedResourceUrl u => u
  end.

Definition logTag : string := "[filters.bufferToUrl]".

(** [String.fromCharCode] of an octet. *)
Definition fromCharCode (b : byte) : string :=
  String (ascii_of_byte b) EmptyString.

(** The loop [for (i = 0; i < len; i++) binary += String.fromCharCode(bytes[i])]. *)
Definition binary_of (bytes : ArrayBuffer) : string :=
  fold_left (fun binary b => binary ++ fromCharCode b) bytes "".

(** The filter with the calls it makes on [$log]. The parameter [trust]
    has the default [true] in the source; callers that pass two arguments
    are embedded with [trust := true]. *)
Definition bufferToUrl (buffer : Js.Nullable ArrayBuffer) (mimeType : string)
    (trust : bool) : Resource * list Effect :=
  match buffer with
  | Js.Undefined | Js.Null =>
      (* [!buffer]: an object reference is falsy only when it is absent *)
      (PlainUrl "",
       [LogError logTag "Could not apply bufferToUrl filter: buffer is" buffer])
  | Js.Val bytes =>
      let binary := binary_of bytes in
      let uri := "data:" ++ mimeType ++ ";base64," ++ Base64.btoa binary in
      if trust then (TrustedResourceUrl uri, [])
      else (PlainUrl uri, [])
  end.

(** The octets of a binary string, as [charCodeAt] reads them back. *)
Definition octets_of (binary : string) : ArrayBuffer :=
  map byte_of_ascii (list_ascii_of_string binary).

End Filters.

(** ** The controller of the message-media directive *)

Module MessageMedia.

Import Filters.

(** [this.thumbnailStyle]. *)
Record Style : Type := mkStyle {
  style_width : string;
  style_height : string;
}.

(** A pixel count followed by [px], for a whole count up to two to the
    53 less one, which JavaScript writes digit by digit. *)
Definition px (n : N) : string :=
  NilEmpty.string_of_uint (N.to_uint n) ++ "px".

(** The fields of [this]. [None] is [null] in [timeout], [thumbnail],
    [location]; [thumbnailStyle] and [blobBuffer] are [undefined] until
    they are assigned. *)
Record Ctrl : Type := mkCtrl {
  message : Message;
  receiver : Receiver;
  type : string;
  downloading : bool;
  thumbnailDownloading : bool;
  downloaded : bool;
  timeout : option nat;
  uploading : bool;
  isAnimGif : bool;
  showThumbnail : bool;
  thumbnail : option Resource;
  thumbnailFormat : string;
  thumbnailStyle : option Style;
  wasInView : bool;
  location : option LocationInfo;
  blobBuffer : option ArrayBuffer;
}.

Definition set_downloading (v : bool) (c : Ctrl) : Ctrl :=
  mkCtrl (message c) (receiver c) (type c) v (thumbnailDownloading c)
    (downloaded c) (timeout c) (uploading c) (isAnimGif c) (showThumbnail c)
    (thumbnail c) (thumbnailFormat c) (thumbnailStyle c) (wasInView c)
    (location c) (blobBuffer c).

Definition set_thumbnailDownloading (v : bool) (c : Ctrl) : Ctrl :=
  mkCtrl (message c) (receiver c) (type c) (downloading c) v
    (downloaded c) (timeout c) (uploading c) (isAnimGif c) (showThumbnail c)
    (thumbnail c) (thumbnailFormat c) (thumbnailStyle c) (wasInView c)
    (location c) (blobBuffer c).

Definition set_downloaded (v : bool) (c : Ctrl) : Ctrl :=
  mkCtrl (message c) (receiver c) (type c) (downloading c)
    (thumbnailDownloading c) v (timeout c) (uploading c) (isAnimGif c)
    (showThumbnail c) (thumbnail c) (thumbnailFormat c) (thumbnailStyle c)
    (wasInView c) (location c) (blobBuffer c).

Definition set_showThumbnail (v : bool) (c : Ctrl) : Ctrl :=
  mkCtrl (message c) (receiver c) (type c) (downloading c)
    (thumbnailDownloading c) (downloaded c) (timeout c) (uploading c)
    (isAnimGif c) v (thumbnail c) (thumbnailFormat c) (thumbnailStyle c)
    (wasInView c) (location c) (blobBuffer c).

Definition set_thumbnail (v : option Resource) (c : Ctrl) : Ctrl :=
  mkCtrl (message c) (receiver c) (type c) (downloading c)
    (thumbnailDownloading c) (downloaded c) (timeout c) (uploading c)
    (isAnimGif c) (showThumbnail c) v (thumbnailFormat c) (thumbnailStyle c)
    (wasInView c) (location c) (blobBuffer c).

Definition set_wasInView (v : bool) (c : Ctrl) : Ctrl :=
  mkCtrl (message c) (receiver c) (type c) (downloading c)
    (thumbnailDownloading c) (downloaded c) (timeout c) (uploading c)
    (isAnimGif c) (showThumbnail c) (thumbnail c) (thumbnailFormat c)
    (thumbnailStyle c) v (location c) (blobBuffer c).

Definition set_blobBuffer (v : option ArrayBuffer) (c : Ctrl) : Ctrl :=
  mkCtrl (message c) (receiver c) (type c) (downloading c)
    (thumbnailDownloading c) (downloaded c) (timeout c) (uploading c)
    (isAnimGif c) (showThumbnail c) (thumbnail c) (thumbnailFormat c)
    (thumbnailStyle c) (wasInView c) (location c) v.

(** What a callback handed to [$timeout] does when it runs. *)
Inductive Task : Type :=
| FetchThumbnail
| StoreThumbnail (image : Js.Nullable ArrayBuffer).

(** A callback waiting in [$timeout]: the handle [$timeout] returned, the
    time it is due at, in milliseconds, and what it does. *)
Record Timer : Type := mkTimer {
  handle : nat;
  due : nat;
  task : Task;
}.

(** An unsettled promise of [requestBlob] with the [message] its
    callbacks captured. *)
Record BlobPromise : Type := mkBlobPromise {
  blob_promise : nat;
  captured : Message;
}.

(** The controller with what surrounds it: the variable
    [loadingThumbnailTimeout] of its closure, the value of
    [webClientService.appCapabilities.imageFormat.thumbnail], the clock and
    the pending callbacks of [$timeout], the unsettled promises of
    [webClientService], and the calls made so far. *)
Record World : Type := mkWorld {
  ctrl : Ctrl;
  loadingThumbnailTimeout : option nat;
  imageFormat_thumbnail : string;
  now : nat;
  fresh : nat;
  timers : list Timer;
  thumbnailPromises : list nat;
  blobPromises : list BlobPromise;
  trace : list Effect;
}.

Definition on_ctrl (f : Ctrl -> Ctrl) (w : World) : World :=
  mkWorld (f (ctrl w)) (loadingThumbnailTimeout w) (imageFormat_thumbnail w)
    (now w) (fresh w) (timers w) (thumbnailPromises w) (blobPromises w)
    (trace w).

Definition set_loadingThumbnailTimeout (v : option nat) (w : World) : World :=
  mkWorld (ctrl w) v (imageFormat_thumbnail w) (now w) (fresh w) (timers w)
    (thumbnailPromises w) (blobPromises w) (trace w).

Definition set_now (v : nat) (w : World) : World :=
  mkWorld (ctrl w) (loadingThumbnailTimeout w) (imageFormat_thumbnail w) v
    (fresh w) (timers w) (thumbnailPromises w) (blobPromises w) (trace w).

Definition set_fresh (v : nat) (w : World) : World :=
  mkWorld (ctrl w) (loadingThumbnailTimeout w) (imageFormat_thumbnail w)
    (now w) v (timers w) (thumbnailPromises w) (blobPromises w) (trace w).

Definition set_timers (v : list Timer) (w : World) : World :=
  mkWorld (ctrl w) (loadingThumbnailTimeout w) (imageFormat_thumbnail w)
    (now w) (fresh w) v (thumbnailPromises w) (blobPromises w) (trace w).

Definition set_thumbnailPromises (v : list nat) (w : World) : World :=
  mkWorld (ctrl w) (loadingThumbnailTimeout w) (imageFormat_thumbnail w)
    (now w) (fresh w) (timers w) v (blobPromises w) (trace w).

Definition set_blobPromises (v : list BlobPromise) (w : World) : World :=
  mkWorld (ctrl w) (loadingThumbnailTimeout w) (imageFormat_thumbnail w)
    (now w) (fresh w) (timers w) (thumbnailPromises w) v (trace w).

(** A call on a collaborator is appended to the trace. *)
Definition emit (es : list Effect) (w : World) : World :=
  mkWorld (ctrl w) (loadingThumbnailTimeout w) (imageFormat_thumbnail w)
    (now w) (fresh w) (timers w) (thumbnailPromises w) (blobPromises w)
    (trace w ++ es)%list.

(** [$timeout(fn, delay)]: the callback is queued and its handle returned. *)
Definition schedule (t : Task) (delay : nat) (w : World) : nat * World :=
  let h := fresh w in
  (h, set_fresh (S h)
        (set_timers (timers w ++ [mkTimer h (now w + delay) t])%list w)).

(** [$timeout.cancel(promise)]: a callback still waiting is dropped;
    [null] and a handle whose callback ran are ignored. *)
Definition cancel (promise : option nat) (w : World) : World :=
  match promise with
  | None => w
  | Some h =>
      set_timers (filter (fun t => negb (handle t =? h)%nat) (timers w)) w
  end.

(** The body of the controller function. It is [None] when the
    constructor throws a [TypeError]: [this.message.file.type] is read,
    for a message of type [file] that is not uploading, also when
    [message.file] is [undefined]. *)
Definition controller (imageFormat : string) (m : Message) (r : Receiver)
    : option World :=
  let uploading :=
    match msg_temporaryId m with
    | Js.Val _ => true
    | Js.Undefined | Js.Null => false
    end in
  let isAnimGif : option bool :=
    if negb uploading && (msg_type m =? "file") then
      match msg_file m with
      | Some f => Some (file_type f =? "image/gif")
      | None => None
      end
    else Some false in
  match isAnimGif with
  | None => None
  | Some isAnimGif =>
      let showThumbnail :=
        match msg_thumbnail m with
        | Some _ => negb (msg_type m =? "file") || isAnimGif
        | None => false
        end in
      let thumbnailStyle :=
        match msg_thumbnail m with
        | Some th => Some (mkStyle (px (width th)) (px (height th)))
        | None => None
        end in
      let location_downloaded :=
        match msg_location m with
        | Some l => (Some l, true)
        | None => (None, false)
        end in
      Some
        (mkWorld
           (mkCtrl m r (msg_type m) false false (snd location_downloaded) None
              uploading isAnimGif showThumbnail None imageFormat
              thumbnailStyle false (fst location_downloaded) None)
           None imageFormat 0 0 [] [] [] [])
  end.

(** [this.thumbnailInView]. *)
Definition thumbnailInView (inView : bool) (w : World) : World :=
  match msg_thumbnail (message (ctrl w)) with
  | None => w
  | Some th =>
      if Bool.eqb (wasInView (ctrl w)) inView then w
      else
        let w := on_ctrl (set_wasInView inView) w in
        if negb inView then
          let w := cancel (loadingThumbnailTimeout w) w in
          let w := on_ctrl (set_thumbnailDownloading false) w in
          on_ctrl (set_thumbnail None) w
        else
          match thumbnail (ctrl w) with
          | Some _ => w
          | None =>
              match img th with
              | Some bytes =>
                  let (url, logged) :=
                    bufferToUrl (Js.Val bytes) (imageFormat_thumbnail w) true in
                  on_ctrl (set_thumbnail (Some url)) (emit logged w)
              | None =>
                  let w := on_ctrl (set_thumbnailDownloading true) w in
                  let (h, w) := schedule FetchThumbnail 1000 w in
                  set_loadingThumbnailTimeout (Some h) w
              end
          end
  end.

(** The callback of the [then] of [requestThumbnail]: it hands the
    assignment to [$timeout] without a delay. There is no callback for a
    rejection. *)
Definition thumbnail_then (image : Js.Nullable ArrayBuffer) (w : World)
    : World :=
  snd (schedule (StoreThumbnail image) 0 w).

(** A callback of [$timeout] runs. *)
Definition run (t : Task) (w : World) : World :=
  match t with
  | FetchThumbnail =>
      let w :=
        emit [RequestThumbnail (receiver (ctrl w)) (message (ctrl w))] w in
      set_fresh (S (fresh w))
        (set_thumbnailPromises (thumbnailPromises w ++ [fresh w])%list w)
  | StoreThumbnail image =>
      let (url, logged) :=
        bufferToUrl image (imageFormat_thumbnail w) true in
      let w := on_ctrl (set_thumbnail (Some url)) (emit logged w) in
      on_ctrl (set_thumbnailDownloading false) w
  end.

(** [this.download]. *)
Definition download (w : World) : World :=
  if downloading (ctrl w) then
    emit [LogDebug "download already in progress..."] w
  else
    let message := message (ctrl w) in
    let receiver := receiver (ctrl w) in
    let w := on_ctrl (set_downloading true) w in
    let w := emit [RequestBlob (msg_id message) receiver] w in
    set_fresh (S (fresh w))
      (set_blobPromises
         (blobPromises w ++ [mkBlobPromise (fresh w) message])%list w).

(** How a callback ends. *)
Inductive Completion : Type :=
| Normal
| TypeError.

(** The callback of the [then] of [requestBlob]. For a message of type
    [file] without [file] the read of [this.message.file.type] throws
    after the two flags are assigned. *)
Definition download_then (message : Message) (blobInfo : BlobInfo)
    (w : World) : World * Completion :=
  let w := on_ctrl (set_downloading false) w in
  let w := on_ctrl (set_downloaded true) w in
  let t := msg_type (MessageMedia.message (ctrl w)) in
  if t =? "image" then
    let caption :=
      match msg_caption message with
      | Some c => c
      | None => ""
      end in
    (emit [SetMedia (buffer blobInfo) (filename blobInfo)
             (mimetype blobInfo) caption] w, Normal)
  else if t =? "video" then
    (emit [SaveAs (buffer blobInfo) (filename blobInfo)] w, Normal)
  else if t =? "file" then
    match msg_file (MessageMedia.message (ctrl w)) with
    | None => (w, TypeError)
    | Some f =>
        if file_type f =? "image/gif" then
          let w := on_ctrl (set_blobBuffer (Some (buffer blobInfo))) w in
          (on_ctrl (set_showThumbnail false) w, Normal)
        else
          (emit [SaveAs (buffer blobInfo) (filename blobInfo)] w, Normal)
    end
  else if t =? "audio" then
    (emit [ShowAudioDialog (buffer blobInfo)] w, Normal)
  else
    (emit [LogWarn "Ignored download request for message type" t] w, Normal).

(** The callback of the [catch] of [requestBlob]. *)
Definition download_catch (error : Reason) (w : World) : World :=
  let w := on_ctrl (set_downloading false) w in
  let contentString :=
    match error with
    | ReasonString s =>
        if s =? "blobDownloadFailed" then "error.BLOB_DOWNLOAD_FAILED"
        else if s =? "blobDecryptFailed" then "error.BLOB_DECRYPT_FAILED"
        else "error.ERROR_OCCURRED"
    | ReasonOther => "error.ERROR_OCCURRED"
    end in
  emit [ShowAlert (mkAlert "common.ERROR" contentString "common.OK")] w.

(** *** The event loop *)

(** What can happen to a controller: the rendering layer calls one of its
    two entry points, time passes, a callback of [$timeout] that is due
    runs, or a promise of [webClientService] is settled. *)
Inductive Event : Type :=
| CallThumbnailInView (inView : bool)
| CallDownload
| Elapse (ms : nat)
| TimerFires (h : nat)
| ThumbnailResolved (p : nat) (image : Js.Nullable ArrayBuffer)
| ThumbnailRejected (p : nat) (error : Reason)
| BlobResolved (p : nat) (blobInfo : BlobInfo)
| BlobRejected (p : nat) (error : Reason).

Definition find_timer (h : nat) (w : World) : option Timer :=
  find (fun t => (handle t =? h)%nat) (timers w).

Definition drop_timer (h : nat) (w : World) : World :=
  set_timers (filter (fun t => negb (handle t =? h)%nat) (timers w)) w.

Definition has_thumbnailPromise (p : nat) (w : World) : bool :=
  existsb (Nat.eqb p) (thumbnailPromises w).

Definition drop_thumbnailPromise (p : nat) (w : World) : World :=
  set_thumbnailPromises
    (filter (fun q => negb (q =? p)%nat) (thumbnailPromises w)) w.

Definition find_blobPromise (p : nat) (w : World) : option BlobPromise :=
  find (fun b => (blob_promise b =? p)%nat) (blobPromises w).

Definition drop_blobPromise (p : nat) (w : World) : World :=
  set_blobPromises
    (filter (fun b => negb (blob_promise b =? p)%nat) (blobPromises w)) w.

(** One turn of the event loop; [None] when the event cannot happen in
    [w]: a callback that is not waiting or not yet due, a promise that is
    not unsettled. A [TypeError] of the callback of [requestBlob] is
    raised inside [$rootScope.$apply], which hands it to the exception
    handler: the callback ends, what it assigned before stays, and the
    [catch] callback does not run. *)
Definition step (e : Event) (w : World) : option World :=
  match e with
  | CallThumbnailInView inView => Some (thumbnailInView inView w)
  | CallDownload => Some (download w)
  | Elapse ms => Some (set_now (now w + ms) w)
  | TimerFires h =>
      match find_timer h w with
      | Some t =>
          if (due t <=? now w)%nat then Some (run (task t) (drop_timer h w))
          else None
      | None => None
      end
  | ThumbnailResolved p image =>
      if has_thumbnailPromise p w
      then Some (thumbnail_then image (drop_thumbnailPromise p w))
      else None
  | ThumbnailRejected p _ =>
      if has_thumbnailPromise p w
      then Some (drop_thumbnailPromise p w)
      else None
  | BlobResolved p blobInfo =>
      match find_blobPromise p w with
      | Some b =>
          Some (fst (download_then (captured b) blobInfo
                       (drop_blobPromise p w)))
      | None => None
      end
  | BlobRejected p error =>
      match find_blobPromise p w with
      | Some _ => Some (download_catch error (drop_blobPromise p w))
      | None => None
      end
  end.

(** A run of events, [None] as soon as one of them cannot happen. *)
Fixpoint steps (es : list Event) (w : World) : option World :=
  match es with
  | [] => Some w
  | e :: es' =>
      match step e w with
      | Some w' => steps es' w'
      | None => None
      end
  end.

(** The events that are not calls of the rendering layer. *)
Definition background (e : Event) : bool :=
  match e with
  | CallThumbnailInView _ | CallDownload => false
  | _ => true
  end.

(** The worlds a controller created for [m] can be in. *)
Inductive reachable (imageFormat : string) (m : Message) (r : Receiver)
    : World -> Prop :=
| reachable_created w :
    controller imageFormat m r = Some w -> reachable imageFormat m r w
| reachable_step w e w' :
    reachable imageFormat m r w -> step e w = Some w' ->
    reachable imageFormat m r w'.

(** Calls of [requestThumbnail] and of [requestBlob] in a trace. *)
Definition is_RequestThumbnail (e : Effect) : bool :=
  match e with RequestThumbnail _ _ => true | _ => false end.

Definition is_RequestBlob (e : Effect) : bool :=
  match e with RequestBlob _ _ => true | _ => false end.

Definition is_SaveAs (e : Effect) : bool :=
  match e with SaveAs _ _ => true | _ => false end.

Definition is_ShowAlert (e : Effect) : bool :=
  match e with ShowAlert _ => true | _ => false end.

Definition thumbnailRequests (w : World) : nat :=
  List.length (filter is_RequestThumbnail (trace w)).

Definition blobRequests (w : World) : nat :=
  List.length (filter is_RequestBlob (trace w)).

Definition is_FetchThumbnail (t : Timer) : bool :=
  match task t with FetchThumbnail => true | StoreThumbnail _ => false end.

(** *** What holds in every reachable world *)

(** The worlds of a controller created for [m]: the message and the image
    format stay what they were; a content fetch is outstanding exactly
    while [downloading] is set; handles are fresh; the only callback that
    can still fetch a thumbnail is the one [loadingThumbnailTimeout]
    names, and it waits only while the attachment is in view. *)
Record consistent (imageFormat : string) (m : Message) (w : World)
    : Prop := mkConsistent {
  same_message : message (ctrl w) = m;
  same_format : imageFormat_thumbnail w = imageFormat;
  same_thumbnailFormat : thumbnailFormat (ctrl w) = imageFormat;
  one_blob :
    List.length (blobPromises w) = if downloading (ctrl w) then 1%nat else 0%nat;
  fresh_handles : forall t, In t (timers w) -> (handle t < fresh w)%nat;
  one_fetch :
    forall t, In t (timers w) -> is_FetchThumbnail t = true ->
      loadingThumbnailTimeout w = Some (handle t)
      /\ wasInView (ctrl w) = true;
  view_needs_thumbnail :
    wasInView (ctrl w) = true -> msg_thumbnail m <> None;
}.

(** What holds for a message whose thumbnail is never fetched, because
    it carries the image or has no thumbnail at all: nothing is scheduled
    or requested for it, and out of view it shows no thumbnail. *)
Record quiet (w : World) : Prop := mkQuiet {
  quiet_flag : thumbnailDownloading (ctrl w) = false;
  quiet_timers : timers w = [];
  quiet_promises : thumbnailPromises w = [];
  quiet_hidden : wasInView (ctrl w) = false -> thumbnail (ctrl w) = None;
}.

(** The callbacks that would fetch a thumbnail are not yet due. *)
Definition fetch_not_due (w : World) : Prop :=
  forall t, In t (timers w) -> is_FetchThumbnail t = true -> (now w < due t)%nat.

(** Case analysis on the scrutinee of a [match] of the goal. *)
Ltac split_match :=
  match goal with
  | |- context [match ?x with _ => _ end] => destruct x eqn:?
  end.

End MessageMedia.

(** ** Runs and sample attachments *)

(** A controller is created and a run of events follows. *)
Definition run_from (imageFormat : string) (m : Message) (r : Receiver)
    (es : list MessageMedia.Event) : option MessageMedia.World :=
  match MessageMedia.controller imageFormat m r with
  | Some w => MessageMedia.steps es w
  | None => None
  end.

Module Samples.

Definition contact : Receiver := mkReceiver "contact" "ECHOECHO".

(** An image whose thumbnail has to be fetched. *)
Definition image_message : Message :=
  mkMessage "m1" "image" Js.Undefined (Some "caption") None
    (Some (mkThumbnail None 120 90)) None.

(** An image that carries its thumbnail. *)
Definition embedded_message : Message :=
  mkMessage "m2" "image" Js.Undefined None None
    (Some (mkThumbnail (Some [x01; x02]%byte) 120 90)) None.

Definition gif_message : Message :=
  mkMessage "m3" "file" Js.Undefined None
    (Some (mkFileInfo "image/gif" "cat.gif")) None None.

Definition pdf_message : Message :=
  mkMessage "m4" "file" Js.Undefined None
    (Some (mkFileInfo "application/pdf" "paper.pdf")) None None.

Definition location_message : Message :=
  mkMessage "m5" "location" Js.Undefined None None None
    (Some (mkLocationInfo 47 8)).

Definition blob : BlobInfo :=
  mkBlobInfo [x01; x02]%byte "application/octet-stream" "blob.bin".

End Samples.

(** ** The text filters *)

Module TextFilters.

(** [text.replace(/[...]/g, by)] for a class of single characters: every
    character of the class is replaced, the others are kept. *)
Fixpoint replace_each (class : ascii -> bool) (by_ : ascii -> string)
    (text : string) : string :=
  match text with
  | EmptyString => EmptyString
  | String c rest =>
      (if class c then by_ c else String c EmptyString)
        ++ replace_each class by_ rest
  end.

(** The double quote. *)
Definition dquote : ascii := "034"%char.

(** The object [map] of [escapeHtml]: [None] is [undefined]. *)
Definition map (m : ascii) : option string :=
  if (m =? "&")%char then Some "&amp;"
  else if (m =? "<")%char then Some "&lt;"
  else if (m =? ">")%char then Some "&gt;"
  else if (m =? dquote)%char then Some "&quot;"
  else if (m =? "'")%char then Some "&#039;"
  else None.

(** The class of the regular expression of [escapeHtml]. *)
Definition special (c : ascii) : bool :=
  (c =? "&")%char || (c =? "<")%char || (c =? ">")%char
  || (c =? dquote)%char || (c =? "'")%char.

(** The filter [escapeHtml]. A replacement that is [undefined] would be
    written as the text [undefined]. *)
Definition escapeHtml (text : Js.Nullable string) : string :=
  let text :=
    match text with
    | Js.Undefined | Js.Null => ""
    | Js.Val t => t
    end in
  replace_each special
    (fun m => match map m with Some e => e | None => "undefined" end) text.

Definition newline : ascii := "010"%char.

(** The filter [nlToBr]: [enabled || enabled === undefined]. *)
Definition nlToBr (text : string) (enabled : Js.Nullable bool) : string :=
  let on :=
    match enabled with
    | Js.Val b => b
    | Js.Undefined => true
    | Js.Null => false
    end in
  if on then replace_each (Ascii.eqb newline) (fun _ => "<br>") text
  else text.

(** White space and line terminators that [trim] strips, among the
    characters a [string] holds: tab to carriage return, space, and the
    no-break space. *)
Definition is_space (c : ascii) : bool :=
  let n := nat_of_ascii c in
  ((9 <=? n)%nat && (n <=? 13)%nat) || (n =? 32)%nat || (n =? 160)%nat.

Fixpoint trimStart (s : string) : string :=
  match s with
  | EmptyString => EmptyString
  | String c rest => if is_space c then trimStart rest else s
  end.

Fixpoint trimEnd (s : string) : string :=
  match s with
  | EmptyString => EmptyString
  | String c rest =>
      match trimEnd rest with
      | EmptyString => if is_space c then EmptyString else String c EmptyString
      | kept => String c kept
      end
  end.

Definition trim (s : string) : string := trimEnd (trimStart s).

(** The filter [emptyToPlaceholder]; [placeholder] is [None] when the
    argument is left out and the default [-] applies. *)
Definition emptyToPlaceholder (text : Js.Nullable string)
    (placeholder : option string) : string :=
  let placeholder :=
    match placeholder with
    | Some p => p
    | None => "-"
    end in
  match text with
  | Js.Undefined | Js.Null => placeholder
  | Js.Val t =>
      if (String.length (trim t) =? 0)%nat then placeholder else t
  end.

(** The largest whole number up to which every whole number is a double:
    [Number.MAX_SAFE_INTEGER], two to the 53 less one. *)
Definition MAX_SAFE_INTEGER : N := 9007199254740991.

(** A non-negative whole number written as JavaScript writes it when it
    is appended to a string. The numbers of the code are doubles: this
    is their text for the whole numbers up to [MAX_SAFE_INTEGER], which
    are written digit by digit. Above it a double is written with the
    shortest digits that read back to it, and from [1e21] in exponent
    form ([1e+21]); the embedding does not follow the code there. *)
Definition decimal (n : N) : string :=
  NilEmpty.string_of_uint (N.to_uint n).

(** The filter [duration], for a whole number of seconds up to
    [MAX_SAFE_INTEGER]. In that range the double arithmetic of the code
    is the arithmetic on whole numbers written here: the quotient
    [seconds / 60] is below two to the 48, where a double is off by at
    most 1/64, less than the 1/60 that separates a quotient from the
    next whole number, so [Math.floor] of the rounded quotient is the
    whole quotient; [%] is exact; and both parts are written digit by
    digit. Beyond the range the code rounds and, from [6e22] seconds,
    writes the minutes in exponent form, which this definition does
    not. *)
Definition duration (seconds : N) : string :=
  let left := (seconds / 60)%N in
  let right := (seconds mod 60)%N in
  let padLeft := if (left <? 10)%N then "0" else "" in
  let padRight := if (right <? 10)%N then "0" else "" in
  padLeft ++ decimal left ++ ":" ++ padRight ++ decimal right.

(** Reading a number written in decimal digits. *)
Definition read_decimal (s : string) : option N :=
  match NilEmpty.uint_of_string s with
  | Some d => Some (N.of_uint d)
  | None => None
  end.

(** What [messageStateIcon] reads of a message. *)
Record StateMessage : Type := mkStateMessage {
  isOutbox : bool;
  state : string;
}.

(** The filter [messageStateIcon]. *)
Definition messageStateIcon (message : Js.Nullable StateMessage) : string :=
  match message with
  | Js.Undefined | Js.Null => ""
  | Js.Val m =>
      if negb (isOutbox m) then
        if state m =? "user-ack" then "thumb_up"
        else if state m =? "user-dec" then "thumb_down"
        else "reply"
      else
        if (state m =? "pending") || (state m =? "sending") then "file_upload"
        else if state m =? "sent" then "email"
        else if state m =? "delivered" then "move_to_inbox"
        else if state m =? "read" then "visibility"
        else if state m =? "send-failed" then "report_problem"
        else if state m =? "user-ack" then "thumb_up"
        else if state m =? "user-dec" then "thumb_down"
        else ""
  end.

(** [names.join(sep)]. *)
Fixpoint join (sep : string) (names : list string) : string :=
  match names with
  | [] => ""
  | [n] => n
  | n :: rest => n ++ sep ++ join sep rest
  end.

(** The loop of [idsToNames]: [contacts] stands for
    [webClientService.contacts.get], giving the [displayName] of the
    contact it finds; the loop throws a [TypeError] at the first id for
    which it finds none. *)
Fixpoint displayNames (contacts : string -> option string)
    (ids : list string) : option (list string) :=
  match ids with
  | [] => Some []
  | id :: rest =>
      match contacts id with
      | None => None
      | Some n =>
          match displayNames contacts rest with
          | Some names => Some (n :: names)
          | None => None
          end
      end
  end.

(** The filter [idsToNames]; [None] when it throws. *)
Definition idsToNames (contacts : string -> option string)
    (ids : list string) : option string :=
  match displayNames contacts ids with
  | Some names => Some (join ", " names)
  | None => None
  end.

(** What [escapeHtml] writes for one character. *)
Definition escaped (c : ascii) : string :=
  if special c
  then match map c with Some e => e | None => "undefined" end
  else String c EmptyString.

(** The five characters of the class, or a character that is kept. *)
Inductive Escaping (c : ascii) : Prop :=
| EscAmp : c = "&"%char -> escaped c = "&amp;" -> Escaping c
| EscLt : c = "<"%char -> escaped c = "&lt;" -> Escaping c
| EscGt : c = ">"%char -> escaped c = "&gt;" -> Escaping c
| EscQuot : c = dquote -> escaped c = "&quot;" -> Escaping c
| EscApos : c = "'"%char -> escaped c = "&#039;" -> Escaping c
| EscKept :
    special c = false -> escaped c = String c EmptyString ->
    c <> "&"%char -> c <> "<"%char -> c <> ">"%char -> c <> dquote ->
    c <> "'"%char -> Escaping c.

(** The characters that open or close markup and attribute values. *)
Definition markup (c : ascii) : bool :=
  (c =? "<")%char || (c =? ">")%char || (c =? dquote)%char
  || (c =? "'")%char.

End TextFilters.

(** ** What the rendering layer reads of the controller *)

Module Lifecycle.

Import MessageMedia.

(** [this.isDownloading]. The binding [showDownloading] is [None] when
    nothing is bound and [Some b] for a function that returns [b]; with
    both flags clear and nothing bound the result is [undefined]. *)
Definition isDownloading (showDownloading : option bool) (c : Ctrl)
    : Js.Nullable bool :=
  if downloading c then Js.Val true
  else if thumbnailDownloading c then Js.Val true
  else
    match showDownloading with
    | None => Js.Undefined
    | Some b => Js.Val b
    end.

(** How often a run calls [thumbnailInView(true)]. *)
Definition entries (es : list Event) : nat :=
  List.length
    (filter (fun e => match e with
                      | CallThumbnailInView true => true
                      | _ => false
                      end) es).

(** The callbacks waiting to fetch a thumbnail. *)
Definition fetchTimers (w : World) : nat :=
  List.length (filter is_FetchThumbnail (timers w)).

(** The fields of [this] that are assigned in the constructor only. *)
Definition created_fields (c : Ctrl)
    : Message * Receiver * string * option nat * bool * bool * string
      * option Style * option LocationInfo :=
  (message c, receiver c, type c, timeout c, uploading c, isAnimGif c,
   thumbnailFormat c, thumbnailStyle c, location c).

(** A controller that is doing nothing: no flag is set, no thumbnail is
    held, the attachment counts as out of view, and nothing is scheduled,
    outstanding or logged. *)
Definition ctrl_idle (w : World) : Prop :=
  downloading (ctrl w) = false
  /\ thumbnailDownloading (ctrl w) = false
  /\ thumbnail (ctrl w) = None
  /\ wasInView (ctrl w) = false
  /\ blobBuffer (ctrl w) = None
  /\ loadingThumbnailTimeout w = None
  /\ timers w = [] /\ thumbnailPromises w = [] /\ blobPromises w = []
  /\ trace w = [].

End Lifecycle.

(** ** The controller model of a group ([controller_model/group.ts]) *)

Module Group.

(** [ControllerModelMode], with the four modes the sources name; the
    [default] branch of the constructor is not taken for any of them. *)
Inductive ControllerModelMode : Type :=
| NEW
| VIEW
| EDIT
| CHAT.

(** [group.access]; a flag is [None] when it is [undefined]. *)
Record Access : Type := mkAccess {
  canChangeAvatar : option bool;
  canChangeName : option bool;
  canChangeMembers : option bool;
  canLeave : option bool;
  canDelete : option bool;
  canSync : option bool;
}.

(** [threema.GroupReceiver], as far as the class reads it. *)
Record GroupReceiver : Type := mkGroupReceiver {
  group_id : string;
  displayName : string;
  group_members : list string;
  administrator : string;
  access : option Access;
}.

(** [!flag] is false only for [true]. *)
Definition granted (flag : option bool) : bool :=
  match flag with
  | Some true => true
  | Some false | None => false
  end.

(** [this.subject]: the texts come from [$translate]; the subject keeps
    which text it is and the name that is handed to [replace] for
    [@NAME@]. The text that [replace] makes of it, where a dollar sign
    in the name is a replacement pattern, is not modelled. *)
Inductive Subject : Type :=
| SubjectEdit (receiverName : string)
| SubjectName (name : string)
| SubjectCreate.

(** The operations on [webClientService] whose promise the class waits
    for, and the dialogs that ask before three of them. *)
Inductive Action : Type :=
| Clean
| Leave
| Delete
| Sync.

Definition Action_eqb (a b : Action) : bool :=
  match a, b with
  | Clean, Clean | Leave, Leave | Delete, Delete | Sync, Sync => true
  | _, _ => false
  end.

(** The calls that leave the class, in the order they are made. The
    texts of a dialog are the keys handed to [$translate.instant]. *)
Inductive Call : Type :=
| Confirm (title textContent ok cancel : string)
| Debug (text : string)
| Error (text : string)
| CleanReceiverConversation (group : option GroupReceiver)
| LeaveGroup (group : GroupReceiver)
| DeleteGroup (group : GroupReceiver)
| SyncGroup (group : GroupReceiver)
| ModifyGroup (id : string) (members : list string) (name : option string)
    (avatar : Js.Nullable ArrayBuffer)
| CreateGroup (members : list string) (name : option string)
    (avatar : Js.Nullable ArrayBuffer)
| Removed (id : string).

(** The fields of [this] that change or are read. [name] is [undefined]
    outside the mode [EDIT] until the form assigns it;
    [hasAvatarController] tells whether [avatarController] was created;
    [onRemovedCallback] tells whether a callback is set. *)
Record Model : Type := mkModel {
  members : list string;
  name : option string;
  subject : Subject;
  isLoading : bool;
  group : option GroupReceiver;
  mode : ControllerModelMode;
  hasAvatarController : bool;
  onRemovedCallback : bool;
}.

Definition set_members (v : list string) (c : Model) : Model :=
  mkModel v (name c) (subject c) (isLoading c) (group c) (mode c)
    (hasAvatarController c) (onRemovedCallback c).

Definition set_isLoading (v : bool) (c : Model) : Model :=
  mkModel (members c) (name c) (subject c) v (group c) (mode c)
    (hasAvatarController c) (onRemovedCallback c).

Definition set_onRemovedCallback (v : bool) (c : Model) : Model :=
  mkModel (members c) (name c) (subject c) (isLoading c) (group c) (mode c)
    (hasAvatarController c) v.

(** The model with what surrounds it: the identity
    [webClientService.getMyIdentity().identity], the dialogs of
    [$mdDialog] that are open, the promises of [webClientService] that
    are unsettled, and the calls made so far. *)
Record GroupWorld : Type := mkGroupWorld {
  model : Model;
  myIdentity : string;
  dialogs : list (nat * Action);
  operations : list (nat * Action);
  next : nat;
  log : list Call;
}.

Definition on_model (f : Model -> Model) (w : GroupWorld) : GroupWorld :=
  mkGroupWorld (f (model w)) (myIdentity w) (dialogs w) (operations w) (next w)
    (log w).

Definition record (cs : list Call) (w : GroupWorld) : GroupWorld :=
  mkGroupWorld (model w) (myIdentity w) (dialogs w) (operations w) (next w)
    (log w ++ cs)%list.

(** [$mdDialog.show(confirm)]: the dialog is open until it is answered. *)
Definition show (c : Call) (a : Action) (w : GroupWorld) : GroupWorld :=
  mkGroupWorld (model w) (myIdentity w) (dialogs w ++ [(next w, a)])%list
    (operations w) (S (next w)) (log w ++ [c])%list.

(** A call on [webClientService] that returns a promise the class
    attaches [then] and [catch] to. *)
Definition start (c : Call) (a : Action) (w : GroupWorld) : GroupWorld :=
  mkGroupWorld (model w) (myIdentity w) (dialogs w)
    (operations w ++ [(next w, a)])%list (S (next w))
    (log w ++ [c])%list.

Definition close_dialog (d : nat) (w : GroupWorld) : GroupWorld :=
  mkGroupWorld (model w) (myIdentity w)
    (filter (fun x => negb (fst x =? d)%nat) (dialogs w)) (operations w)
    (next w) (log w).

Definition settle (p : nat) (w : GroupWorld) : GroupWorld :=
  mkGroupWorld (model w) (myIdentity w) (dialogs w)
    (filter (fun x => negb (fst x =? p)%nat) (operations w)) (next w)
    (log w).

(** The constructor; [None] when it throws a [TypeError] because a mode
    other than [NEW] reads [this.group.displayName] of no group. *)
Definition create (me : string) (mode : ControllerModelMode)
    (group : option GroupReceiver) : option GroupWorld :=
  let world c := mkGroupWorld c me [] [] 0 [] in
  match mode, group with
  | EDIT, Some g =>
      Some (world (mkModel (group_members g) (Some (displayName g))
                     (SubjectEdit (displayName g)) false group mode true
                     false))
  | VIEW, Some g | CHAT, Some g =>
      Some (world (mkModel (group_members g) None
                     (SubjectName (displayName g)) false group mode false
                     false))
  | NEW, _ =>
      Some (world (mkModel [] None SubjectCreate false group mode true false))
  | _, None => None
  end.

(** [isValid]. *)
Definition isValid (w : GroupWorld) : bool :=
  Nat.ltb 0
    (List.length
       (filter (fun identity => negb (identity =? myIdentity w))
          (members (model w)))).

(** [canView]. *)
Definition canView (w : GroupWorld) : bool := true.

(** [canEdit]; [None] when reading [this.group.access] throws. *)
Definition canEdit (w : GroupWorld) : option bool :=
  match group (model w) with
  | None => None
  | Some g =>
      Some match access g with
           | None => false
           | Some a =>
               match canChangeAvatar a, canChangeName a, canChangeMembers a with
               | Some true, _, _ | _, Some true, _ | _, _, Some true => true
               | _, _, _ => false
               end
           end
  end.

(** [canClean]. *)
Definition canClean (w : GroupWorld) : bool := canView w.

(** [clean]. *)
Definition clean (w : GroupWorld) : GroupWorld :=
  show (Confirm "messenger.DELETE_THREAD" "messenger.DELETE_THREAD_MESSAGE"
          "common.YES" "common.CANCEL") Clean w.

(** [reallyClean]. *)
Definition reallyClean (w : GroupWorld) : GroupWorld :=
  if negb (canClean w) then
    record [Error "not allowed to clean this contact"] w
  else
    let w := on_model (set_isLoading true) w in
    start (CleanReceiverConversation (group (model w))) Clean w.

(** [leave]; it throws when there is no group to read the administrator
    of. *)
Definition leave (w : GroupWorld) : GroupWorld * MessageMedia.Completion :=
  match group (model w) with
  | None => (w, MessageMedia.TypeError)
  | Some g =>
      (show (Confirm "messenger.GROUP_LEAVE"
               (if administrator g =? myIdentity w
                then "messenger.GROUP_REALLY_LEAVE_ADMIN"
                else "messenger.GROUP_REALLY_LEAVE")
               "common.OK" "common.CANCEL") Leave w,
       MessageMedia.Normal)
  end.

(** Reading [this.group.access.flag]; [None] when it throws. *)
Definition access_flag (flag : Access -> option bool) (w : GroupWorld)
    : option (GroupReceiver * bool) :=
  match group (model w) with
  | None => None
  | Some g =>
      match access g with
      | None => None
      | Some a => Some (g, granted (flag a))
      end
  end.

(** [reallyLeave]. *)
Definition reallyLeave (w : GroupWorld)
    : GroupWorld * MessageMedia.Completion :=
  match access_flag canLeave w with
  | None => (w, MessageMedia.TypeError)
  | Some (g, false) =>
      (record [Error "cannot leave group"] w, MessageMedia.Normal)
  | Some (g, true) =>
      let w := on_model (set_isLoading true) w in
      (start (LeaveGroup g) Leave w, MessageMedia.Normal)
  end.

(** [delete]. *)
Definition delete (w : GroupWorld) : GroupWorld :=
  show (Confirm "messenger.GROUP_DELETE" "messenger.GROUP_DELETE_REALLY"
          "common.OK" "common.CANCEL") Delete w.

(** [reallyDelete]. *)
Definition reallyDelete (w : GroupWorld)
    : GroupWorld * MessageMedia.Completion :=
  match access_flag canDelete w with
  | None => (w, MessageMedia.TypeError)
  | Some (g, false) =>
      (record [Error "can not delete group"] w, MessageMedia.Normal)
  | Some (g, true) =>
      let w := on_model (set_isLoading true) w in
      (start (DeleteGroup g) Delete w, MessageMedia.Normal)
  end.

(** [sync]. *)
Definition sync (w : GroupWorld) : GroupWorld * MessageMedia.Completion :=
  match access_flag canSync w with
  | None => (w, MessageMedia.TypeError)
  | Some (g, false) =>
      (record [Error "cannot sync group"] w, MessageMedia.Normal)
  | Some (g, true) =>
      let w := on_model (set_isLoading true) w in
      (start (SyncGroup g) Sync w, MessageMedia.Normal)
  end.

(** [save], with the value [avatarController.getAvatar()] returns; it
    throws when no avatar controller was created. The promise goes to
    the caller. *)
Definition save (avatar : Js.Nullable ArrayBuffer) (w : GroupWorld)
    : GroupWorld * MessageMedia.Completion :=
  match mode (model w) with
  | EDIT =>
      match group (model w), hasAvatarController (model w) with
      | Some g, true =>
          (record [ModifyGroup (group_id g) (members (model w))
                   (name (model w)) avatar] w, MessageMedia.Normal)
      | _, _ => (w, MessageMedia.TypeError)
      end
  | NEW =>
      if hasAvatarController (model w) then
        (record [CreateGroup (members (model w)) (name (model w)) avatar] w,
         MessageMedia.Normal)
      else (w, MessageMedia.TypeError)
  | VIEW | CHAT =>
      (record [Error "not allowed to save group"] w, MessageMedia.Normal)
  end.

(** The callbacks of the promise of an operation. After a group is
    deleted the callback [onRemovedCallback], when one is set, is called
    with the id of the group. *)
Definition operation_then (a : Action) (w : GroupWorld)
    : GroupWorld * MessageMedia.Completion :=
  let w := on_model (set_isLoading false) w in
  match a with
  | Delete =>
      if onRemovedCallback (model w) then
        match group (model w) with
        | Some g => (record [Removed (group_id g)] w, MessageMedia.Normal)
        | None => (w, MessageMedia.TypeError)
        end
      else (w, MessageMedia.Normal)
  | Clean | Leave | Sync => (w, MessageMedia.Normal)
  end.

Definition operation_catch (a : Action) (w : GroupWorld) : GroupWorld :=
  on_model (set_isLoading false) w.

(** The callbacks of the promise of a dialog; no dialog asks before
    [sync]. *)
Definition dialog_then (a : Action) (w : GroupWorld)
    : GroupWorld * MessageMedia.Completion :=
  match a with
  | Clean => (reallyClean w, MessageMedia.Normal)
  | Leave => reallyLeave w
  | Delete => reallyDelete w
  | Sync => (w, MessageMedia.Normal)
  end.

Definition dialog_cancelled (a : Action) (w : GroupWorld) : GroupWorld :=
  match a with
  | Clean => record [Debug "clean canceled"] w
  | Leave => record [Debug "leave canceled"] w
  | Delete => record [Debug "delete canceled"] w
  | Sync => w
  end.

(** What can happen to the model: the view calls a method, the user
    answers a dialog, or a promise of [webClientService] is settled. *)
Inductive GroupEvent : Type :=
| CallClean
| CallLeave
| CallDelete
| CallSync
| CallSave (avatar : Js.Nullable ArrayBuffer)
| CallOnChangeMembers (identities : list string)
| CallSetOnRemoved (callback : bool)
| DialogConfirmed (d : nat)
| DialogCancelled (d : nat)
| OperationResolved (p : nat)
| OperationRejected (p : nat).

Definition find_action (k : nat) (l : list (nat * Action)) : option Action :=
  match find (fun x => (fst x =? k)%nat) l with
  | Some x => Some (snd x)
  | None => None
  end.

(** One turn of the event loop; [None] when the event cannot happen. A
    method or callback that throws ends there; what it did before
    stays. *)
Definition turn (e : GroupEvent) (w : GroupWorld) : option GroupWorld :=
  match e with
  | CallClean => Some (clean w)
  | CallLeave => Some (fst (leave w))
  | CallDelete => Some (delete w)
  | CallSync => Some (fst (sync w))
  | CallSave avatar => Some (fst (save avatar w))
  | CallOnChangeMembers identities =>
      Some (on_model (set_members identities) w)
  | CallSetOnRemoved callback =>
      Some (on_model (set_onRemovedCallback callback) w)
  | DialogConfirmed d =>
      match find_action d (dialogs w) with
      | Some a => Some (fst (dialog_then a (close_dialog d w)))
      | None => None
      end
  | DialogCancelled d =>
      match find_action d (dialogs w) with
      | Some a => Some (dialog_cancelled a (close_dialog d w))
      | None => None
      end
  | OperationResolved p =>
      match find_action p (operations w) with
      | Some a => Some (fst (operation_then a (settle p w)))
      | None => None
      end
  | OperationRejected p =>
      match find_action p (operations w) with
      | Some a => Some (operation_catch a (settle p w))
      | None => None
      end
  end.

Fixpoint turns (es : list GroupEvent) (w : GroupWorld) : option GroupWorld :=
  match es with
  | [] => Some w
  | e :: es' =>
      match turn e w with
      | Some w' => turns es' w'
      | None => None
      end
  end.

(** The worlds a model created for [group] can be in. *)
Inductive attainable (me : string) (mode : ControllerModelMode)
    (group : option GroupReceiver) : GroupWorld -> Prop :=
| attainable_created w :
    create me mode group = Some w -> attainable me mode group w
| attainable_turn w e w' :
    attainable me mode group w -> turn e w = Some w' ->
    attainable me mode group w'.

(** Counting in the log and among the open dialogs. *)
Definition is_call (a : Action) (c : Call) : bool :=
  match a, c with
  | Clean, CleanReceiverConversation _ => true
  | Leave, LeaveGroup _ => true
  | Delete, DeleteGroup _ => true
  | Sync, SyncGroup _ => true
  | _, _ => false
  end.

Definition asks (a : Action) (c : Call) : bool :=
  match a, c with
  | Clean, Confirm title _ _ _ => title =? "messenger.DELETE_THREAD"
  | Leave, Confirm title _ _ _ => title =? "messenger.GROUP_LEAVE"
  | Delete, Confirm title _ _ _ => title =? "messenger.GROUP_DELETE"
  | _, _ => false
  end.

Definition calls (a : Action) (w : GroupWorld) : nat :=
  List.length (filter (is_call a) (log w)).

Definition asked (a : Action) (w : GroupWorld) : nat :=
  List.length (filter (asks a) (log w)).

Definition open (a : Action) (w : GroupWorld) : nat :=
  List.length (filter (fun x => Action_eqb (snd x) a) (dialogs w)).

Definition removed (w : GroupWorld) : nat :=
  List.length
    (filter (fun c => match c with Removed _ => true | _ => false end)
       (log w)).

Definition pending (a : Action) (w : GroupWorld) : nat :=
  List.length (filter (fun x => Action_eqb (snd x) a) (operations w)).

(** The group grants [flag]: [this.group.access.flag] is [true]. *)
Definition grants (flag : Access -> option bool) (g : GroupReceiver) : Prop :=
  exists a, access g = Some a /\ flag a = Some true.

(** A call that is neither an operation nor a dialog. *)
Definition plain (c : Call) : Prop :=
  (forall a, is_call a c = false) /\ (forall a, asks a c = false)
  /\ (forall id, c <> Removed id)
  /\ c <> Error "not allowed to clean this contact".

(** What holds in every world of a model created for [group0]. *)
Record sound (group0 : option GroupReceiver) (w : GroupWorld)
    : Prop := mkSound {
  same_group : group (model w) = group0;
  loading_pending : isLoading (model w) = true -> operations w <> [];
  leave_granted :
    forall g, In (LeaveGroup g) (log w) ->
      group0 = Some g /\ grants canLeave g;
  delete_granted :
    forall g, In (DeleteGroup g) (log w) ->
      group0 = Some g /\ grants canDelete g;
  sync_granted :
    forall g, In (SyncGroup g) (log w) ->
      group0 = Some g /\ grants canSync g;
  confirmed :
    forall a, a <> Sync -> (calls a w + open a w <= asked a w)%nat;
  removed_deleted : (removed w + pending Delete w <= calls Delete w)%nat;
  clean_allowed : ~ In (Error "not allowed to clean this contact") (log w);
}.

(** A call of [modifyGroup] or [createGroup] fits the mode and the group
    of the model. *)
Definition saved_in_mode (mode0 : ControllerModelMode)
    (group0 : option GroupReceiver) (c : Call) : Prop :=
  match c with
  | ModifyGroup id _ _ _ =>
      mode0 = EDIT /\ exists g, group0 = Some g /\ id = group_id g
  | CreateGroup _ _ _ => mode0 = NEW
  | _ => True
  end.

(** A group the user may leave and synchronise, but not delete. *)
Definition sample_group : GroupReceiver :=
  mkGroupReceiver "g1" "Hikers" ["ECHOECHO"; "ABCD1234"] "ABCD1234"
    (Some (mkAccess None None None (Some true) (Some false) (Some true))).

(** A group the user administers. *)
Definition own_group : GroupReceiver :=
  mkGroupReceiver "g2" "Family" ["ECHOECHO"] "ECHOECHO"
    (Some (mkAccess (Some true) (Some true) (Some true) (Some false)
             (Some true) (Some true))).

(** A model is created and a group_run of events follows. *)
Definition group_run (me : string) (mode : ControllerModelMode)
    (group : option GroupReceiver) (es : list GroupEvent) : option GroupWorld :=
  match create me mode group with
  | Some w => turns es w
  | None => None
  end.

End Group.

(** ** Properties of Base64 *)

Module Base64Facts.

Import Base64.
Local Open Scope N_scope.

Ltac Zify.zify_post_hook ::= Z.to_euclidean_division_equations.

(** Lists are taken apart three elements at a time, as [encode] does. *)
Lemma triples_ind (A : Type) (P : list A -> Prop) :
  P [] ->
  (forall a, P [a]) ->
  (forall a b, P [a; b]) ->
  (forall a b c rest, P rest -> P (a :: b :: c :: rest)) ->
  forall l, P l.
Proof.
  intros Hnil Hone Htwo Hstep.
  fix IH 1.
  intros [|a [|b [|c rest]]].
  - exact Hnil.
  - apply Hone.
  - apply Htwo.
  - apply Hstep, IH.
Qed.

Lemma sextets_complete (n : N) : n < 64 -> In n sextets.
Proof.
  intros Hn. unfold sextets.
  rewrite <- (N2Nat.id n). apply in_map, in_seq. lia.
Qed.

Lemma value_digit (n : N) : n < 64 -> value (digit n) = Some n.
Proof.
  intros Hn.
  assert (Hall : forallb
            (fun k => match value (digit k) with
                      | Some j => j =? k
                      | None => false
                      end) sextets = true) by (vm_compute; reflexivity).
  rewrite forallb_forall in Hall.
  specialize (Hall n (sextets_complete n Hn)).
  destruct (value (digit n)) as [j|]; [|discriminate].
  apply N.eqb_eq in Hall. now subst.
Qed.

Lemma digit_not_pad (n : N) : n < 64 -> Ascii.eqb (digit n) pad = false.
Proof.
  intros Hn.
  assert (Hall : forallb (fun k => negb (Ascii.eqb (digit k) pad)) sextets
                 = true) by (vm_compute; reflexivity).
  rewrite forallb_forall in Hall.
  specialize (Hall n (sextets_complete n Hn)).
  now apply negb_true_iff in Hall.
Qed.

Lemma quad_three (a b c : N) :
  a < 256 -> b < 256 -> c < 256 ->
  quad (digit (a / 4)) (digit ((a mod 4) * 16 + b / 16))
       (digit ((b mod 16) * 4 + c / 64)) (digit (c mod 64))
  = Some [a; b; c].
Proof.
  intros Ha Hb Hc. unfold quad.
  rewrite !value_digit by lia.
  rewrite !digit_not_pad by lia.
  do 2 f_equal; [lia|]. f_equal; [lia|]. f_equal. lia.
Qed.

Lemma quad_two (a b : N) :
  a < 256 -> b < 256 ->
  quad (digit (a / 4)) (digit ((a mod 4) * 16 + b / 16))
       (digit ((b mod 16) * 4)) pad
  = Some [a; b].
Proof.
  intros Ha Hb. unfold quad.
  rewrite !value_digit by lia.
  rewrite !digit_not_pad by lia.
  rewrite Ascii.eqb_refl.
  do 2 f_equal; [lia|]. f_equal. lia.
Qed.

Lemma quad_one (a : N) :
  a < 256 ->
  quad (digit (a / 4)) (digit ((a mod 4) * 16)) pad pad = Some [a].
Proof.
  intros Ha. unfold quad.
  rewrite !value_digit by lia.
  rewrite Ascii.eqb_refl.
  do 2 f_equal. lia.
Qed.

Lemma encode_nil (l : list N) : encode l = [] -> l = [].
Proof. destruct l as [|a [|b [|c rest]]]; simpl; congruence. Qed.

(** Decoding undoes encoding on octets. *)
Lemma decode_encode (l : list N) :
  Forall (fun n => n < 256) l -> decode (encode l) = Some l.
Proof.
  induction l as [|a|a b|a b c rest IH] using triples_ind; intros Hl.
  - reflexivity.
  - inversion_clear Hl.
    cbn [encode decode]. now rewrite quad_one.
  - inversion_clear Hl as [|? ? Ha Hl']. inversion_clear Hl'.
    cbn [encode decode]. now rewrite quad_two.
  - inversion_clear Hl as [|? ? Ha Hl1].
    inversion_clear Hl1 as [|? ? Hb Hl2].
    inversion_clear Hl2 as [|? ? Hc Hrest].
    cbn [encode decode]. rewrite quad_three by assumption.
    rewrite (IH Hrest).
    destruct (encode rest) eqn:Henc.
    + now rewrite (encode_nil rest Henc).
    + reflexivity.
Qed.

Lemma octets_bounded (l : list ascii) :
  Forall (fun n => n < 256) (map N_of_ascii l).
Proof.
  induction l as [|c l IH]; constructor; auto using N_ascii_bounded.
Qed.

Lemma ascii_of_N_of_ascii (l : list ascii) :
  map ascii_of_N (map N_of_ascii l) = l.
Proof.
  induction l as [|c l IH]; simpl; [reflexivity|].
  now rewrite ascii_N_embedding, IH.
Qed.

(** [atob] undoes [btoa] on every binary string. *)
Lemma atob_btoa (binary : string) : atob (btoa binary) = Some binary.
Proof.
  unfold atob, btoa.
  rewrite list_ascii_of_string_of_list_ascii.
  rewrite decode_encode by apply octets_bounded.
  now rewrite ascii_of_N_of_ascii, string_of_list_ascii_of_string.
Qed.

End Base64Facts.

(** ** Properties of the [bufferToUrl] filter *)

Module FiltersFacts.

Import Filters.

Lemma append_assoc (s1 s2 s3 : string) : (s1 ++ s2) ++ s3 = s1 ++ (s2 ++ s3).
Proof.
  induction s1 as [|c s1 IH]; simpl; [reflexivity|]. now rewrite IH.
Qed.

Lemma binary_loop (bytes : ArrayBuffer) (binary : string) :
  fold_left (fun acc b => acc ++ fromCharCode b) bytes binary
  = binary ++ string_of_list_ascii (map ascii_of_byte bytes).
Proof.
  revert binary.
  induction bytes as [|b bytes IH]; intros binary; simpl.
  - induction binary as [|c s IHs]; simpl; [reflexivity|]. now rewrite <- IHs.
  - rewrite IH, append_assoc. reflexivity.
Qed.

(** The binary string has one character per octet, in order. *)
Lemma binary_of_octets (bytes : ArrayBuffer) :
  binary_of bytes = string_of_list_ascii (map ascii_of_byte bytes).
Proof. unfold binary_of. now rewrite binary_loop. Qed.

Lemma octets_of_binary_of (bytes : ArrayBuffer) :
  octets_of (binary_of bytes) = bytes.
Proof.
  unfold octets_of.
  rewrite binary_of_octets, list_ascii_of_string_of_list_ascii.
  induction bytes as [|b bytes IH]; simpl; [reflexivity|].
  now rewrite byte_of_ascii_of_byte, IH.
Qed.

Example bufferToUrl_two_octets_untrusted :
  bufferToUrl (Js.Val [x01; x02]%byte) "image/png" false
  = (PlainUrl "data:image/png;base64,AQI=", []).
Proof. reflexivity. Qed.

(** C7. Round trip. For the buffer [0x01, 0x02] and the MIME type
    [image/png] the filter yields the data URI
    [data:image/png;base64,AQI=], and for every present buffer and every
    MIME type it yields [data:<mimeType>;base64,<b64>] where [atob]
    decodes [<b64>] to a binary string whose octets are exactly the
    octets of the buffer. The trusted result wraps that same string. *)
Theorem bufferToUrl_roundtrip :
  fst (bufferToUrl (Js.Val [x01; x02]%byte) "image/png" true)
  = TrustedResourceUrl "data:image/png;base64,AQI="
  /\ forall (bytes : ArrayBuffer) (mimeType : string) (trust : bool),
       exists b64 binary,
         resource_uri (fst (bufferToUrl (Js.Val bytes) mimeType trust))
         = "data:" ++ mimeType ++ ";base64," ++ b64
         /\ snd (bufferToUrl (Js.Val bytes) mimeType trust) = []
         /\ Base64.atob b64 = Some binary
         /\ octets_of binary = bytes.
Proof.
  split; [reflexivity|].
  intros bytes mimeType trust.
  exists (Base64.btoa (binary_of bytes)), (binary_of bytes).
  repeat split.
  - unfold bufferToUrl. now destruct trust.
  - unfold bufferToUrl. now destruct trust.
  - apply Base64Facts.atob_btoa.
  - apply octets_of_binary_of.
Qed.

(** C8, as the code has it. The filter is a total function: it never
    throws. For an absent buffer ([undefined] or [null]) it logs the
    error and returns the empty string. A present buffer of length zero
    passes the test [!buffer]: nothing is logged and the result is the
    data URI with an empty payload, trusted when [trust] is set. *)
Theorem bufferToUrl_absent_or_empty (mimeType : string) (trust : bool) :
  bufferToUrl Js.Undefined mimeType trust
  = (PlainUrl "",
     [LogError logTag "Could not apply bufferToUrl filter: buffer is"
        Js.Undefined])
  /\ bufferToUrl Js.Null mimeType trust
     = (PlainUrl "",
        [LogError logTag "Could not apply bufferToUrl filter: buffer is"
           Js.Null])
  /\ bufferToUrl (Js.Val []) mimeType trust
     = ((if trust then TrustedResourceUrl else PlainUrl)
          ("data:" ++ mimeType ++ ";base64,"), []).
Proof.
  repeat split.
  unfold bufferToUrl, binary_of. simpl fold_left.
  change (Base64.btoa "") with "".
  replace (";base64," ++ "") with ";base64," by reflexivity.
  now destruct trust.
Qed.

(** C8 as stated fails: for a present buffer of length zero the filter
    returns a non-empty resource and logs nothing. *)
Lemma bufferToUrl_empty_buffer_not_empty_string :
  bufferToUrl (Js.Val []) "image/png" true
  = (TrustedResourceUrl "data:image/png;base64,", [])
  /\ resource_uri (fst (bufferToUrl (Js.Val []) "image/png" true)) <> ""
  /\ snd (bufferToUrl (Js.Val []) "image/png" true) = [].
Proof. repeat split. discriminate. Qed.

End FiltersFacts.

(** ** Properties of the controller *)

Module MessageMediaFacts.

Import Filters MessageMedia.

(** *** Runs *)

Lemma steps_app (es1 es2 : list Event) (w : World) :
  steps (es1 ++ es2) w
  = match steps es1 w with
    | Some w' => steps es2 w'
    | None => None
    end.
Proof.
  revert w. induction es1 as [|e es1 IH]; intros w; simpl; [reflexivity|].
  destruct (step e w); [apply IH | reflexivity].
Qed.

Lemma reachable_steps imageFormat m r (es : list Event) (w w' : World) :
  reachable imageFormat m r w -> steps es w = Some w' ->
  reachable imageFormat m r w'.
Proof.
  revert w. induction es as [|e es IH]; intros w Hw Hsteps; simpl in Hsteps.
  - now inversion Hsteps; subst.
  - destruct (step e w) as [w1|] eqn:Hstep; [|discriminate].
    eapply IH; [|eassumption]. eapply reachable_step; eassumption.
Qed.

Lemma run_from_reachable imageFormat m r (es : list Event) (w : World) :
  run_from imageFormat m r es = Some w -> reachable imageFormat m r w.
Proof.
  unfold run_from.
  destruct (controller imageFormat m r) as [w0|] eqn:Hcreate; [|discriminate].
  apply reachable_steps. now apply reachable_created.
Qed.

(** *** Creation *)

(** C10. A message that carries a location is created downloaded: the
    constructor stores the location and sets [downloaded], nothing is
    being downloaded, and no call on a collaborator, no timer and no
    promise exists. The constructor fails only by the [TypeError] of
    reading [file.type] of a [file] message without [file]. *)
Theorem controller_location imageFormat (m : Message) (r : Receiver)
    (l : LocationInfo) :
  msg_location m = Some l ->
  match controller imageFormat m r with
  | Some w =>
      location (ctrl w) = Some l
      /\ downloaded (ctrl w) = true
      /\ downloading (ctrl w) = false
      /\ trace w = [] /\ blobPromises w = []
      /\ thumbnailPromises w = [] /\ timers w = []
  | None =>
      msg_type m = "file" /\ msg_file m = None
      /\ forall t, msg_temporaryId m <> Js.Val t
  end.
Proof.
  intros Hloc. unfold controller. rewrite Hloc.
  destruct (msg_temporaryId m) as [| |t]; cbn [negb andb];
    try (destruct (msg_type m =? "file") eqn:Htype; cbn [andb];
         [destruct (msg_file m) as [f|]|]);
    cbn; repeat split; try discriminate;
    now apply String.eqb_eq.
Qed.

Lemma controller_location_witness :
  match controller "image/jpeg" Samples.location_message Samples.contact with
  | Some w =>
      location (ctrl w) = Some (mkLocationInfo 47 8)
      /\ downloaded (ctrl w) = true
      /\ downloading (ctrl w) = false
      /\ trace w = [] /\ blobPromises w = []
      /\ thumbnailPromises w = [] /\ timers w = []
  | None =>
      msg_type Samples.location_message = "file"
      /\ msg_file Samples.location_message = None
      /\ forall t, msg_temporaryId Samples.location_message <> Js.Val t
  end.
Proof.
  apply (controller_location "image/jpeg" Samples.location_message
           Samples.contact (mkLocationInfo 47 8)).
  reflexivity.
Defined.

(** *** The content path *)

Lemma find_blobPromise_step_resolved (p : nat) (b : BlobPromise)
    (blobInfo : BlobInfo) (w : World) :
  find_blobPromise p w = Some b ->
  step (BlobResolved p blobInfo) w
  = Some (fst (download_then (captured b) blobInfo (drop_blobPromise p w))).
Proof. intros Hp. cbn [step]. now rewrite Hp. Qed.

(** C9. A download of a [file] message succeeds. When the subtype is
    [image/gif] the thumbnail is hidden, the fetched buffer is kept in
    [blobBuffer] for inline display, and nothing is saved: the trace does
    not grow. For every other subtype exactly one [saveAs] of the fetched
    buffer under the suggested name is made, and [showThumbnail] and
    [blobBuffer] stay as they are. *)
Theorem download_file_succeeds (w : World) (p : nat) (b : BlobPromise)
    (blobInfo : BlobInfo) (f : FileInfo) :
  find_blobPromise p w = Some b ->
  msg_type (message (ctrl w)) = "file" ->
  msg_file (message (ctrl w)) = Some f ->
  exists w',
    step (BlobResolved p blobInfo) w = Some w'
    /\ downloading (ctrl w') = false
    /\ downloaded (ctrl w') = true
    /\ (file_type f = "image/gif" ->
        showThumbnail (ctrl w') = false
        /\ blobBuffer (ctrl w') = Some (buffer blobInfo)
        /\ trace w' = trace w)
    /\ (file_type f <> "image/gif" ->
        trace w' = (trace w ++ [SaveAs (buffer blobInfo) (filename blobInfo)])%list
        /\ showThumbnail (ctrl w') = showThumbnail (ctrl w)
        /\ blobBuffer (ctrl w') = blobBuffer (ctrl w)).
Proof.
  intros Hp Htype Hfile.
  rewrite (find_blobPromise_step_resolved p b blobInfo w Hp).
  eexists; split; [reflexivity|].
  unfold download_then. cbn [ctrl on_ctrl drop_blobPromise set_blobPromises
    message set_downloading set_downloaded].
  rewrite Htype, Hfile. cbn [String.eqb Ascii.eqb Bool.eqb].
  destruct (file_type f =? "image/gif") eqn:Hgif; cbn.
  - apply String.eqb_eq in Hgif. repeat split; try reflexivity; congruence.
  - apply String.eqb_neq in Hgif. repeat split; try reflexivity; congruence.
Qed.

Lemma download_file_succeeds_witness :
  exists w w',
    run_from "image/jpeg" Samples.gif_message Samples.contact [CallDownload]
    = Some w
    /\ step (BlobResolved 0 Samples.blob) w = Some w'
    /\ downloading (ctrl w') = false
    /\ downloaded (ctrl w') = true
    /\ showThumbnail (ctrl w') = false
    /\ blobBuffer (ctrl w') = Some (buffer Samples.blob)
    /\ trace w' = trace w.
Proof.
  eexists.
  destruct (download_file_succeeds
              (download
                 (mkWorld
                    (mkCtrl Samples.gif_message Samples.contact "file" false
                       false false None false true false None "image/jpeg"
                       None false None None)
                    None "image/jpeg" 0 0 [] [] [] []))
              0 (mkBlobPromise 0 Samples.gif_message) Samples.blob
              (mkFileInfo "image/gif" "cat.gif")
              eq_refl eq_refl eq_refl)
    as (w' & Hstep & Hdl & Hdone & Hgif & _).
  exists w'.
  split; [reflexivity|].
  split; [exact Hstep|].
  split; [exact Hdl|].
  split; [exact Hdone|].
  exact (Hgif eq_refl).
Defined.

Example pdf_is_saved :
  exists w,
    run_from "image/jpeg" Samples.pdf_message Samples.contact
      [CallDownload; BlobResolved 0 Samples.blob]
    = Some w
    /\ trace w
       = [RequestBlob "m4" Samples.contact; SaveAs [x01; x02]%byte "blob.bin"]
    /\ blobBuffer (ctrl w) = None
    /\ downloaded (ctrl w) = true.
Proof. eexists; split; [vm_compute; reflexivity|]. repeat split. Qed.

Lemma find_blobPromise_step_rejected (p : nat) (b : BlobPromise)
    (error : Reason) (w : World) :
  find_blobPromise p w = Some b ->
  step (BlobRejected p error) w
  = Some (download_catch error (drop_blobPromise p w)).
Proof. intros Hp. cbn [step]. now rewrite Hp. Qed.

(** C2, as the code has it. A content fetch fails. The callback of
    [catch] clears [downloading], leaves [downloaded] as it was (false
    unless the attachment was downloaded before), and shows exactly one
    alert, with the title [common.ERROR] and the button [common.OK]. Its
    text is [error.BLOB_DECRYPT_FAILED] for [blobDecryptFailed],
    [error.BLOB_DOWNLOAD_FAILED] for [blobDownloadFailed] and
    [error.ERROR_OCCURRED] for every other reason. *)
Theorem download_fails (w : World) (p : nat) (b : BlobPromise)
    (error : Reason) :
  find_blobPromise p w = Some b ->
  exists w' text,
    step (BlobRejected p error) w = Some w'
    /\ downloading (ctrl w') = false
    /\ downloaded (ctrl w') = downloaded (ctrl w)
    /\ trace w'
       = (trace w ++ [ShowAlert (mkAlert "common.ERROR" text "common.OK")])%list
    /\ (error = ReasonString "blobDecryptFailed" ->
        text = "error.BLOB_DECRYPT_FAILED")
    /\ (error = ReasonString "blobDownloadFailed" ->
        text = "error.BLOB_DOWNLOAD_FAILED")
    /\ (error <> ReasonString "blobDecryptFailed" ->
        error <> ReasonString "blobDownloadFailed" ->
        text = "error.ERROR_OCCURRED").
Proof.
  intros Hp.
  rewrite (find_blobPromise_step_rejected p b error w Hp).
  eexists; eexists; split; [reflexivity|].
  unfold download_catch. cbn.
  repeat split.
  - intros ->. reflexivity.
  - intros ->. reflexivity.
  - intros Hdecrypt Hdownload.
    destruct error as [s|]; [|reflexivity].
    destruct (s =? "blobDownloadFailed") eqn:H1.
    + apply String.eqb_eq in H1. congruence.
    + destruct (s =? "blobDecryptFailed") eqn:H2; [|reflexivity].
      apply String.eqb_eq in H2. congruence.
Qed.

Lemma download_fails_witness :
  exists w w',
    run_from "image/jpeg" Samples.image_message Samples.contact [CallDownload]
    = Some w
    /\ step (BlobRejected 0 (ReasonString "blobDecryptFailed")) w = Some w'
    /\ downloading (ctrl w') = false
    /\ downloaded (ctrl w') = false
    /\ trace w'
       = (trace w
          ++ [ShowAlert
                (mkAlert "common.ERROR" "error.BLOB_DECRYPT_FAILED"
                   "common.OK")])%list.
Proof.
  eexists.
  destruct (download_fails
              (download
                 (mkWorld
                    (mkCtrl Samples.image_message Samples.contact "image"
                       false false false None false false true None
                       "image/jpeg" (Some (mkStyle "120px" "90px")) false
                       None None)
                    None "image/jpeg" 0 0 [] [] [] []))
              0 (mkBlobPromise 0 Samples.image_message)
              (ReasonString "blobDecryptFailed") eq_refl)
    as (w' & text & Hstep & Hdl & Hdone & Htrace & Hdecrypt & _).
  exists w'.
  split; [reflexivity|].
  split; [exact Hstep|].
  split; [exact Hdl|].
  split; [exact Hdone|].
  rewrite Htrace, (Hdecrypt eq_refl). reflexivity.
Defined.

(** C2 as stated fails: an image is downloaded, downloaded once more, and
    the second fetch fails with [blobDecryptFailed]. The attachment stays
    [downloaded]. *)
Lemma second_download_fails_downloaded :
  exists w,
    run_from "image/jpeg" Samples.image_message Samples.contact
      [CallDownload; BlobResolved 0 Samples.blob;
       CallDownload; BlobRejected 1 (ReasonString "blobDecryptFailed")]
    = Some w
    /\ downloading (ctrl w) = false
    /\ downloaded (ctrl w) <> false.
Proof.
  eexists; split; [vm_compute; reflexivity|].
  split; [reflexivity|discriminate].
Qed.

(** *** The thumbnail path *)

(** C3, at the failing input. The thumbnail of an image has to be
    fetched; the attachment comes into view, the delay passes, the fetch
    is made and is rejected. No alert is shown and [thumbnail] is still
    [null], but [thumbnailDownloading] is still [true]: the promise of
    [requestThumbnail] has no callback for a rejection. *)
Theorem thumbnail_fetch_rejected :
  exists w,
    run_from "image/jpeg" Samples.image_message Samples.contact
      [CallThumbnailInView true; Elapse 1000; TimerFires 0;
       ThumbnailRejected 1 ReasonOther]
    = Some w
    /\ thumbnailDownloading (ctrl w) = true
    /\ thumbnail (ctrl w) = None
    /\ trace w = [RequestThumbnail Samples.contact Samples.image_message]
    /\ thumbnailPromises w = [] /\ timers w = [].
Proof. eexists; split; [vm_compute; reflexivity|]. repeat split. Qed.

(** In every world a rejection of the thumbnail fetch only settles the
    promise: no field of [this] changes, nothing is scheduled, and no
    call on a collaborator is made. *)
Lemma thumbnail_rejection_ignored (w : World) (p : nat) (error : Reason) :
  has_thumbnailPromise p w = true ->
  exists w',
    step (ThumbnailRejected p error) w = Some w'
    /\ ctrl w' = ctrl w /\ timers w' = timers w /\ trace w' = trace w.
Proof.
  intros Hp. cbn [step]. rewrite Hp.
  eexists; split; [reflexivity|]. repeat split.
Qed.

(** C4 as stated fails: the fetch is in flight when the attachment leaves
    the view; the promise is resolved afterwards, and the thumbnail is
    assigned although the attachment is out of view. *)
Lemma late_thumbnail_is_stored :
  exists w,
    run_from "image/jpeg" Samples.image_message Samples.contact
      [CallThumbnailInView true; Elapse 1000; TimerFires 0;
       CallThumbnailInView false;
       ThumbnailResolved 1 (Js.Val [x01; x02]%byte); TimerFires 2]
    = Some w
    /\ wasInView (ctrl w) = false
    /\ thumbnailDownloading (ctrl w) = false
    /\ thumbnail (ctrl w)
       = Some (TrustedResourceUrl "data:image/jpeg;base64,AQI=")
    /\ thumbnail (ctrl w) <> None.
Proof.
  eexists; split; [vm_compute; reflexivity|]. repeat split. discriminate.
Qed.

(** *** What holds in every reachable world *)

Local Open Scope nat_scope.

Lemma consistent_created imageFormat m r w :
  controller imageFormat m r = Some w -> consistent imageFormat m w.
Proof.
  unfold controller. intros Hw.
  repeat match type of Hw with
         | context [match ?x with _ => _ end] => destruct x eqn:?
         end;
    try discriminate; inversion Hw; subst; clear Hw;
    constructor; cbn; try reflexivity; try contradiction; try discriminate.
Qed.

Lemma consistent_thumbnailInView imageFormat m (inView : bool) w :
  consistent imageFormat m w -> consistent imageFormat m (thumbnailInView inView w).
Proof.
  intros [Hm Hf Htf Hblob Hfresh Hfetch Hview].
  unfold thumbnailInView.
  destruct (msg_thumbnail (message (ctrl w))) as [th|] eqn:Hth;
    [|now constructor].
  destruct (Bool.eqb (wasInView (ctrl w)) inView) eqn:Hsame;
    [now constructor|].
  assert (Hm_th : msg_thumbnail m <> None) by (rewrite <- Hm; congruence).
  destruct inView; cbn [negb].
  - (* into view *)
    destruct (wasInView (ctrl w)) eqn:Hwas; [discriminate|].
    assert (Hnone : forall t, In t (timers w) -> is_FetchThumbnail t = false).
    { intros t Ht. destruct (is_FetchThumbnail t) eqn:Hk; [|reflexivity].
      destruct (Hfetch t Ht Hk) as [_ Habs]. discriminate. }
    cbn [ctrl on_ctrl thumbnail set_wasInView].
    destruct (thumbnail (ctrl w)) as [url|] eqn:Hthumb.
    + constructor; cbn; auto.
      intros t Ht Hk. rewrite (Hnone t Ht) in Hk. discriminate.
    + destruct (img th) as [bytes|] eqn:Himg.
      * cbn [imageFormat_thumbnail on_ctrl].
        destruct (bufferToUrl (Js.Val bytes) (imageFormat_thumbnail w) true)
          as [url logged].
        constructor; cbn; auto.
        intros t Ht Hk. rewrite (Hnone t Ht) in Hk. discriminate.
      * constructor; cbn; auto.
        -- intros t Ht. apply in_app_or in Ht as [Ht|[<-|[]]]; cbn.
           ++ specialize (Hfresh t Ht). lia.
           ++ lia.
        -- intros t Ht Hk. apply in_app_or in Ht as [Ht|[<-|[]]]; cbn.
           ++ rewrite (Hnone t Ht) in Hk. discriminate.
           ++ auto.
  - (* out of view *)
    cbv zeta. cbn [loadingThumbnailTimeout on_ctrl].
    destruct (loadingThumbnailTimeout w) as [h|] eqn:Hh;
      constructor; cbn; auto; try discriminate.
    + intros t Ht. apply filter_In in Ht as [Ht _]. auto.
    + intros t Ht Hk. exfalso.
      apply filter_In in Ht as [Ht Hneq].
      destruct (Hfetch t Ht Hk) as [Heq _].
      injection Heq as Heq. rewrite Heq, Nat.eqb_refl in Hneq. discriminate.
    + intros t Ht Hk. destruct (Hfetch t Ht Hk) as [Heq _]. discriminate.
Qed.

Lemma consistent_download imageFormat m w :
  consistent imageFormat m w -> consistent imageFormat m (download w).
Proof.
  intros [Hm Hf Htf Hblob Hfresh Hfetch Hview].
  unfold download.
  destruct (downloading (ctrl w)) eqn:Hdl.
  - constructor; cbn; auto. now rewrite Hdl.
  - constructor; cbn; auto.
    + rewrite length_app, Hblob. reflexivity.
    + intros t Ht. specialize (Hfresh t Ht). lia.
Qed.

Lemma consistent_run imageFormat m (h : nat) (t : Timer) w :
  consistent imageFormat m w ->
  consistent imageFormat m (run (task t) (drop_timer h w)).
Proof.
  intros [Hm Hf Htf Hblob Hfresh Hfetch Hview].
  unfold run.
  destruct (task t) as [|image].
  - constructor; cbn; auto.
    + intros t' Ht'. apply filter_In in Ht' as [Ht' _].
      specialize (Hfresh t' Ht'). lia.
    + intros t' Ht'. apply filter_In in Ht' as [Ht' _]. auto.
  - cbn [imageFormat_thumbnail drop_timer set_timers].
    destruct (bufferToUrl image (imageFormat_thumbnail w) true)
      as [url logged].
    constructor; cbn; auto.
    + intros t' Ht'. apply filter_In in Ht' as [Ht' _]. auto.
    + intros t' Ht'. apply filter_In in Ht' as [Ht' _]. auto.
Qed.

Lemma consistent_thumbnail_then imageFormat m (p : nat)
    (image : Js.Nullable ArrayBuffer) w :
  consistent imageFormat m w ->
  consistent imageFormat m (thumbnail_then image (drop_thumbnailPromise p w)).
Proof.
  intros [Hm Hf Htf Hblob Hfresh Hfetch Hview].
  constructor; cbn; auto.
  - intros t Ht. apply in_app_or in Ht as [Ht|[<-|[]]]; cbn.
    + specialize (Hfresh t Ht). lia.
    + lia.
  - intros t Ht Hk. apply in_app_or in Ht as [Ht|[<-|[]]]; cbn.
    + auto.
    + discriminate.
Qed.

Lemma consistent_drop_thumbnailPromise imageFormat m (p : nat) w :
  consistent imageFormat m w ->
  consistent imageFormat m (drop_thumbnailPromise p w).
Proof. intros [Hm Hf Htf Hblob Hfresh Hfetch Hview]. now constructor. Qed.

(** While the only outstanding content fetch is settled, none is left. *)
Lemma settle_blobPromise imageFormat m (p : nat) (b : BlobPromise) w :
  consistent imageFormat m w -> find_blobPromise p w = Some b ->
  blobPromises (drop_blobPromise p w) = [].
Proof.
  intros Hw Hfind. unfold find_blobPromise in Hfind. cbn.
  pose proof (one_blob _ _ _ Hw) as Hlen.
  destruct (blobPromises w) as [|b1 [|b2 bs]]; cbn in *.
  - discriminate.
  - destruct (blob_promise b1 =? p); [reflexivity|discriminate].
  - destruct (downloading (ctrl w)); discriminate.
Qed.

Lemma consistent_download_then imageFormat m (p : nat) (b : BlobPromise)
    (blobInfo : BlobInfo) w :
  consistent imageFormat m w -> find_blobPromise p w = Some b ->
  consistent imageFormat m
    (fst (download_then (captured b) blobInfo (drop_blobPromise p w))).
Proof.
  intros Hw Hfind.
  pose proof (settle_blobPromise _ _ _ _ _ Hw Hfind) as Hnone.
  destruct Hw as [Hm Hf Htf Hblob Hfresh Hfetch Hview].
  unfold download_then.
  repeat split_match; constructor; cbn; auto;
    cbn in Hnone; rewrite Hnone; reflexivity.
Qed.

Lemma consistent_download_catch imageFormat m (p : nat) (b : BlobPromise)
    (error : Reason) w :
  consistent imageFormat m w -> find_blobPromise p w = Some b ->
  consistent imageFormat m (download_catch error (drop_blobPromise p w)).
Proof.
  intros Hw Hfind.
  pose proof (settle_blobPromise _ _ _ _ _ Hw Hfind) as Hnone.
  destruct Hw as [Hm Hf Htf Hblob Hfresh Hfetch Hview].
  unfold download_catch.
  constructor; cbn; auto.
  cbn in Hnone; rewrite Hnone; reflexivity.
Qed.

Lemma consistent_step imageFormat m (e : Event) w w' :
  consistent imageFormat m w -> step e w = Some w' ->
  consistent imageFormat m w'.
Proof.
  intros Hw Hstep.
  destruct e as [inView| |ms|h|p image|p error|p blobInfo|p error];
    cbn [step] in Hstep.
  - injection Hstep as <-. now apply consistent_thumbnailInView.
  - injection Hstep as <-. now apply consistent_download.
  - injection Hstep as <-.
    destruct Hw as [Hm Hf Htf Hblob Hfresh Hfetch Hview]. now constructor.
  - destruct (find_timer h w) as [t|]; [|discriminate].
    destruct (due t <=? now w); [|discriminate].
    injection Hstep as <-. now apply consistent_run.
  - destruct (has_thumbnailPromise p w); [|discriminate].
    injection Hstep as <-. now apply consistent_thumbnail_then.
  - destruct (has_thumbnailPromise p w); [|discriminate].
    injection Hstep as <-. now apply consistent_drop_thumbnailPromise.
  - destruct (find_blobPromise p w) as [b|] eqn:Hfind; [|discriminate].
    injection Hstep as <-. now apply consistent_download_then.
  - destruct (find_blobPromise p w) as [b|] eqn:Hfind; [|discriminate].
    injection Hstep as <-. now apply (consistent_download_catch _ _ _ b).
Qed.

Lemma reachable_consistent imageFormat m r w :
  reachable imageFormat m r w -> consistent imageFormat m w.
Proof.
  induction 1 as [w Hcreate|w e w' _ IH Hstep].
  - eapply consistent_created; eassumption.
  - eapply consistent_step; eassumption.
Qed.

(** *** The content path: one fetch at a time *)

(** C1. In every reachable world at most one content fetch is
    outstanding. While [downloading] is set, [download] only writes a
    debug line: the fields of [this], the timers and the promises stay as
    they are and [requestBlob] is not called. *)
Theorem download_while_downloading imageFormat m r (w : World) :
  reachable imageFormat m r w ->
  List.length (blobPromises w) <= 1
  /\ (downloading (ctrl w) = true ->
      ctrl (download w) = ctrl w
      /\ loadingThumbnailTimeout (download w) = loadingThumbnailTimeout w
      /\ timers (download w) = timers w
      /\ thumbnailPromises (download w) = thumbnailPromises w
      /\ blobPromises (download w) = blobPromises w
      /\ List.length (blobPromises (download w)) = 1
      /\ trace (download w)
         = (trace w ++ [LogDebug "download already in progress..."])%list
      /\ blobRequests (download w) = blobRequests w).
Proof.
  intros Hreach.
  pose proof (one_blob _ _ _ (reachable_consistent _ _ _ _ Hreach)) as Hlen.
  split.
  - rewrite Hlen. destruct (downloading (ctrl w)); lia.
  - intros Hdl. unfold download, blobRequests. rewrite Hdl in *.
    cbn. repeat split; try assumption.
    rewrite filter_app, length_app. cbn. lia.
Qed.

Lemma download_while_downloading_witness :
  exists w,
    run_from "image/jpeg" Samples.image_message Samples.contact [CallDownload]
    = Some w
    /\ downloading (ctrl w) = true
    /\ List.length (blobPromises w) <= 1
    /\ ctrl (download w) = ctrl w
    /\ blobPromises (download w) = blobPromises w
    /\ blobRequests (download w) = blobRequests w.
Proof.
  eexists. split; [vm_compute; reflexivity|].
  split; [reflexivity|].
  destruct (download_while_downloading "image/jpeg" Samples.image_message
              Samples.contact _
              (run_from_reachable "image/jpeg" Samples.image_message
                 Samples.contact [CallDownload] _ eq_refl))
    as [Hle Hnoop].
  destruct (Hnoop eq_refl) as (Hctrl & _ & _ & _ & Hblobs & _ & _ & Hreq).
  repeat split; assumption.
Defined.

(** *** The thumbnail path: leaving the view *)

Lemma thumbnailInView_leave (th : Thumbnail) (w : World) :
  msg_thumbnail (message (ctrl w)) = Some th ->
  wasInView (ctrl w) = true ->
  thumbnailInView false w
  = on_ctrl (set_thumbnail None)
      (on_ctrl (set_thumbnailDownloading false)
         (cancel (loadingThumbnailTimeout w)
            (on_ctrl (set_wasInView false) w))).
Proof.
  intros Hth Hwas. unfold thumbnailInView. rewrite Hth, Hwas. reflexivity.
Qed.

Lemma cancel_frame (h : option nat) (w : World) :
  ctrl (cancel h w) = ctrl w
  /\ thumbnailPromises (cancel h w) = thumbnailPromises w
  /\ trace (cancel h w) = trace w
  /\ now (cancel h w) = now w
  /\ fresh (cancel h w) = fresh w
  /\ imageFormat_thumbnail (cancel h w) = imageFormat_thumbnail w.
Proof. destruct h; repeat split. Qed.

Lemma find_fresh_timer (l : list Timer) (h d : nat) (k : Task) :
  (forall t, In t l -> handle t < h) ->
  find (fun t => handle t =? h) (l ++ [mkTimer h d k]) = Some (mkTimer h d k).
Proof.
  intros Hl. induction l as [|t l IH]; cbn.
  - now rewrite Nat.eqb_refl.
  - assert (Hlt : handle t < h) by (apply Hl; now left).
    apply Nat.lt_neq, Nat.eqb_neq in Hlt. rewrite Hlt.
    apply IH. intros t' Ht'. apply Hl. now right.
Qed.

(** C4, as the code has it. Leaving the view drops the callback that
    would start the fetch and resets [thumbnail] and
    [thumbnailDownloading]; a fetch that is already in flight stays
    outstanding. When its promise is resolved afterwards, the callback
    handed to [$timeout] runs without any test: [thumbnailDownloading]
    stays [false], and [thumbnail] becomes the resource of the fetched
    image although the attachment is out of view. *)
Theorem late_thumbnail_after_leaving imageFormat m r (w : World) (p : nat)
    (image : Js.Nullable ArrayBuffer) :
  reachable imageFormat m r w ->
  wasInView (ctrl w) = true ->
  has_thumbnailPromise p w = true ->
  let w1 := thumbnailInView false w in
  thumbnail (ctrl w1) = None
  /\ thumbnailDownloading (ctrl w1) = false
  /\ (forall t, In t (timers w1) -> is_FetchThumbnail t = false)
  /\ has_thumbnailPromise p w1 = true
  /\ exists w2 w3,
       step (ThumbnailResolved p image) w1 = Some w2
       /\ ctrl w2 = ctrl w1
       /\ step (TimerFires (fresh w1)) w2 = Some w3
       /\ wasInView (ctrl w3) = false
       /\ thumbnailDownloading (ctrl w3) = false
       /\ thumbnail (ctrl w3)
          = Some (fst (bufferToUrl image imageFormat true)).
Proof.
  intros Hreach Hwas Hp w1.
  pose proof (reachable_consistent _ _ _ _ Hreach) as Hw.
  assert (Hreach1 : reachable imageFormat m r w1)
    by (apply (reachable_step _ _ _ w (CallThumbnailInView false));
        [assumption|reflexivity]).
  pose proof (reachable_consistent _ _ _ _ Hreach1) as Hw1.
  destruct (msg_thumbnail (message (ctrl w))) as [th|] eqn:Hth.
  2:{ exfalso. apply (view_needs_thumbnail _ _ _ Hw Hwas).
      now rewrite <- (same_message _ _ _ Hw). }
  assert (Heq : w1 = on_ctrl (set_thumbnail None)
                       (on_ctrl (set_thumbnailDownloading false)
                          (cancel (loadingThumbnailTimeout w)
                             (on_ctrl (set_wasInView false) w))))
    by (apply thumbnailInView_leave with th; assumption).
  destruct (cancel_frame (loadingThumbnailTimeout w)
              (on_ctrl (set_wasInView false) w))
    as (Hc_ctrl & Hc_promises & Hc_trace & Hc_now & Hc_fresh & Hc_format).
  assert (Hview1 : wasInView (ctrl w1) = false)
    by (rewrite Heq; cbn; now rewrite Hc_ctrl).
  assert (Hpromise1 : has_thumbnailPromise p w1 = true).
  { unfold has_thumbnailPromise. rewrite Heq. cbn. now rewrite Hc_promises. }
  split; [now rewrite Heq|].
  split; [now rewrite Heq|].
  split.
  { intros t Ht. destruct (is_FetchThumbnail t) eqn:Hk; [|reflexivity].
    destruct (one_fetch _ _ _ Hw1 t Ht Hk) as [_ Habs]. congruence. }
  split; [exact Hpromise1|].
  clearbody w1. clear Heq.
  cbn [step]. rewrite Hpromise1.
  eexists; eexists. split; [reflexivity|].
  split; [reflexivity|].
  unfold find_timer, thumbnail_then, schedule.
  cbn [snd timers set_fresh set_timers drop_thumbnailPromise
         set_thumbnailPromises fresh now].
  rewrite find_fresh_timer by apply (fresh_handles _ _ _ Hw1).
  cbn [due task now]. rewrite Nat.add_0_r, Nat.leb_refl.
  split; [reflexivity|].
  unfold run.
  cbn [imageFormat_thumbnail drop_timer set_timers set_fresh
         drop_thumbnailPromise set_thumbnailPromises].
  rewrite (same_format _ _ _ Hw1).
  destruct (bufferToUrl image imageFormat true) as [url logged].
  cbn. auto.
Qed.

Lemma late_thumbnail_after_leaving_witness :
  exists w w2 w3,
    run_from "image/jpeg" Samples.image_message Samples.contact
      [CallThumbnailInView true; Elapse 1000; TimerFires 0]
    = Some w
    /\ wasInView (ctrl w) = true
    /\ has_thumbnailPromise 1 w = true
    /\ thumbnail (ctrl (thumbnailInView false w)) = None
    /\ step (ThumbnailResolved 1 (Js.Val [x01; x02]%byte))
         (thumbnailInView false w) = Some w2
    /\ step (TimerFires (fresh (thumbnailInView false w))) w2 = Some w3
    /\ thumbnail (ctrl w3)
       = Some (fst (bufferToUrl (Js.Val [x01; x02]%byte) "image/jpeg" true)).
Proof.
  eexists.
  match goal with
  | |- exists w2 w3, _ = Some ?w /\ _ =>
      destruct (late_thumbnail_after_leaving "image/jpeg"
                  Samples.image_message Samples.contact w 1
                  (Js.Val [x01; x02]%byte))
        as (Hnone & _ & _ & _ & w2 & w3 & Hresolved & _ & Hfires & _ & _
            & Hthumb)
  end.
  - apply (run_from_reachable "image/jpeg" Samples.image_message
             Samples.contact
             [CallThumbnailInView true; Elapse 1000; TimerFires 0]).
    vm_compute. reflexivity.
  - reflexivity.
  - reflexivity.
  - exists w2, w3.
    split; [vm_compute; reflexivity|].
    split; [reflexivity|].
    split; [reflexivity|].
    split; [exact Hnone|].
    split; [exact Hresolved|].
    split; [exact Hfires|exact Hthumb].
Defined.

(** *** The thumbnail path: an embedded thumbnail *)

Lemma bufferToUrl_present (bytes : ArrayBuffer) (mimeType : string) :
  snd (bufferToUrl (Js.Val bytes) mimeType true) = [].
Proof. reflexivity. Qed.

Lemma never_fetching_quiet imageFormat m r (w : World) :
  (forall th, msg_thumbnail m = Some th -> img th <> None) ->
  reachable imageFormat m r w -> quiet w.
Proof.
  intros Hembedded Hreach.
  induction Hreach as [w Hcreate|w e w' Hreach IH Hstep].
  - unfold controller in Hcreate.
    destruct (if _ : bool then _ else _) as [gif|]; [|discriminate].
    injection Hcreate as <-. now constructor.
  - pose proof (same_message _ _ _ (reachable_consistent _ _ _ _ Hreach))
      as Hm.
    pose proof IH as [Hflag Htimers Hpromises Hhidden].
    destruct e as [inView| |ms|h|p image|p error|p blobInfo|p error];
      cbn [step] in Hstep.
    + injection Hstep as <-. unfold thumbnailInView.
      rewrite Hm.
      destruct (msg_thumbnail m) as [th|] eqn:Hth; [|exact IH].
      destruct (img th) as [bytes|] eqn:Himg;
        [|now destruct (Hembedded th eq_refl)].
      destruct (wasInView (ctrl w)) eqn:Hwas, inView; cbn [Bool.eqb negb];
        try exact IH.
      * cbv zeta. cbn [loadingThumbnailTimeout on_ctrl].
        destruct (loadingThumbnailTimeout w);
          constructor; cbn; rewrite ?Htimers; auto.
      * cbn [ctrl on_ctrl thumbnail set_wasInView].
        rewrite (Hhidden eq_refl).
        destruct (bufferToUrl _ _ _) as [url logged].
        constructor; cbn; auto. discriminate.
    + injection Hstep as <-. unfold download.
      destruct (downloading (ctrl w)); now constructor.
    + injection Hstep as <-. now constructor.
    + unfold find_timer in Hstep. rewrite Htimers in Hstep. discriminate.
    + unfold has_thumbnailPromise in Hstep. rewrite Hpromises in Hstep.
      discriminate.
    + unfold has_thumbnailPromise in Hstep. rewrite Hpromises in Hstep.
      discriminate.
    + destruct (find_blobPromise p w) as [b|]; [|discriminate].
      injection Hstep as <-. unfold download_then.
      repeat split_match; now constructor.
    + destruct (find_blobPromise p w) as [b|]; [|discriminate].
      injection Hstep as <-. now constructor.
Qed.

(** C5. The message carries its thumbnail and the attachment comes into
    view. In the same call, [thumbnail] becomes
    [bufferToUrl(message.thumbnail.img, thumbnailFormat)] with the
    default [trust = true], which is the trusted resource
    [data:<thumbnailFormat>;base64,<b64>] whose payload [<b64>] is the
    base64 text of the embedded octets and decodes back to exactly
    them; [thumbnailDownloading] stays [false], no callback is handed to
    [$timeout], and no call on a collaborator is made: the trace does
    not grow. *)
Theorem embedded_thumbnail_shown imageFormat m r (th : Thumbnail)
    (bytes : ArrayBuffer) (w : World) :
  reachable imageFormat m r w ->
  msg_thumbnail m = Some th -> img th = Some bytes ->
  wasInView (ctrl w) = false ->
  let w' := thumbnailInView true w in
  thumbnail (ctrl w')
  = Some (fst (bufferToUrl (Js.Val bytes) (thumbnailFormat (ctrl w)) true))
  /\ thumbnail (ctrl w')
     = Some (TrustedResourceUrl
               ("data:" ++ thumbnailFormat (ctrl w) ++ ";base64,"
                ++ Base64.btoa (binary_of bytes)))
  /\ Base64.atob (Base64.btoa (binary_of bytes)) = Some (binary_of bytes)
  /\ octets_of (binary_of bytes) = bytes
  /\ thumbnailDownloading (ctrl w') = false
  /\ wasInView (ctrl w') = true
  /\ timers w' = [] /\ thumbnailPromises w' = []
  /\ loadingThumbnailTimeout w' = loadingThumbnailTimeout w
  /\ trace w' = trace w.
Proof.
  intros Hreach Hth Himg Hwas.
  pose proof (reachable_consistent _ _ _ _ Hreach) as Hw.
  assert (Hembedded : forall th', msg_thumbnail m = Some th' ->
                        img th' <> None) by (intros th' Hth'; congruence).
  destruct (never_fetching_quiet _ _ _ _ Hembedded Hreach)
    as [Hflag Htimers Hpromises Hhidden].
  unfold thumbnailInView.
  rewrite (same_message _ _ _ Hw), Hth, Hwas.
  cbn [Bool.eqb negb ctrl on_ctrl thumbnail set_wasInView
         imageFormat_thumbnail].
  rewrite (Hhidden Hwas), Himg.
  rewrite (same_thumbnailFormat _ _ _ Hw), (same_format _ _ _ Hw).
  change (bufferToUrl (Js.Val bytes) imageFormat true)
    with (TrustedResourceUrl
            ("data:" ++ imageFormat ++ ";base64,"
             ++ Base64.btoa (binary_of bytes)), @nil Effect).
  cbn [fst ctrl on_ctrl emit thumbnail thumbnailDownloading wasInView timers
         thumbnailPromises loadingThumbnailTimeout trace set_thumbnail
         set_wasInView].
  rewrite app_nil_r.
  split; [reflexivity|]. split; [reflexivity|].
  split; [apply Base64Facts.atob_btoa|].
  split; [apply FiltersFacts.octets_of_binary_of|].
  repeat split; assumption.
Qed.

Lemma embedded_thumbnail_shown_witness :
  exists w,
    controller "image/jpeg" Samples.embedded_message Samples.contact = Some w
    /\ wasInView (ctrl w) = false
    /\ thumbnail (ctrl (thumbnailInView true w))
       = Some (TrustedResourceUrl "data:image/jpeg;base64,AQI=")
    /\ Base64.atob "AQI=" = Some (binary_of [x01; x02]%byte)
    /\ thumbnailDownloading (ctrl (thumbnailInView true w)) = false
    /\ timers (thumbnailInView true w) = []
    /\ trace (thumbnailInView true w) = [].
Proof.
  eexists. split; [reflexivity|].
  split; [reflexivity|].
  match goal with
  | |- context [thumbnailInView true ?w] =>
      destruct (embedded_thumbnail_shown "image/jpeg" Samples.embedded_message
                  Samples.contact (mkThumbnail (Some [x01; x02]%byte) 120 90)
                  [x01; x02]%byte w
                  (reachable_created "image/jpeg" Samples.embedded_message
                     Samples.contact w eq_refl)
                  eq_refl eq_refl eq_refl)
        as (_ & Hthumb & Hdecode & _ & Hflag & _ & Htimers & _ & _ & Htrace)
  end.
  split; [exact Hthumb|].
  split; [exact Hdecode|].
  split; [exact Hflag|].
  split; [exact Htimers|exact Htrace].
Defined.

(** *** The thumbnail path: a short stay in view *)

Lemma thumbnailRequests_emit (es : list Effect) (w : World) :
  filter is_RequestThumbnail es = [] ->
  thumbnailRequests (emit es w) = thumbnailRequests w.
Proof.
  intros Hes. unfold thumbnailRequests. cbn.
  now rewrite filter_app, Hes, app_nil_r.
Qed.

Lemma bufferToUrl_requests_nothing (image : Js.Nullable ArrayBuffer)
    (mimeType : string) (trust : bool) :
  filter is_RequestThumbnail (snd (bufferToUrl image mimeType trust)) = [].
Proof. destruct image, trust; reflexivity. Qed.

(** The clock never runs backwards. *)
Lemma step_now_mono (e : Event) (w w' : World) :
  step e w = Some w' -> now w <= now w'.
Proof.
  intros Hstep.
  destruct e as [inView| |ms|h|p image|p error|p blobInfo|p error];
    cbn [step] in Hstep.
  - injection Hstep as <-. unfold thumbnailInView, schedule.
    repeat split_match; cbn; try lia.
    destruct (cancel_frame (loadingThumbnailTimeout w)
                (on_ctrl (set_wasInView inView) w))
      as (_ & _ & _ & -> & _).
    cbn. lia.
  - injection Hstep as <-. unfold download. split_match; cbn; lia.
  - injection Hstep as <-. cbn. lia.
  - destruct (find_timer h w) as [t|]; [|discriminate].
    destruct (due t <=? now w); [|discriminate].
    injection Hstep as <-. unfold run. repeat split_match; cbn; lia.
  - destruct (has_thumbnailPromise p w); [|discriminate].
    injection Hstep as <-. cbn. lia.
  - destruct (has_thumbnailPromise p w); [|discriminate].
    injection Hstep as <-. cbn. lia.
  - destruct (find_blobPromise p w) as [b|]; [|discriminate].
    injection Hstep as <-. unfold download_then.
    repeat split_match; cbn; lia.
  - destruct (find_blobPromise p w) as [b|]; [|discriminate].
    injection Hstep as <-. cbn. lia.
Qed.

Lemma steps_now_mono (es : list Event) (w w' : World) :
  steps es w = Some w' -> now w <= now w'.
Proof.
  revert w. induction es as [|e es IH]; intros w Hsteps; cbn in Hsteps.
  - injection Hsteps as <-. lia.
  - destruct (step e w) as [w1|] eqn:Hstep; [|discriminate].
    apply step_now_mono in Hstep. apply IH in Hsteps. lia.
Qed.

(** While no fetching callback is due, what happens in the background
    requests no thumbnail, does not touch [wasInView], and queues no
    further fetching callback. *)
Lemma background_step_fetches_nothing (e : Event) (w w' : World) :
  background e = true -> step e w = Some w' -> fetch_not_due w ->
  thumbnailRequests w' = thumbnailRequests w
  /\ wasInView (ctrl w') = wasInView (ctrl w)
  /\ message (ctrl w') = message (ctrl w)
  /\ (forall t, In t (timers w') -> is_FetchThumbnail t = true ->
      In t (timers w)).
Proof.
  intros Hbg Hstep Hdue.
  destruct e as [inView| |ms|h|p image|p error|p blobInfo|p error];
    try discriminate Hbg; cbn [step] in Hstep.
  - injection Hstep as <-. cbn. auto.
  - destruct (find_timer h w) as [t|] eqn:Hfind; [|discriminate].
    destruct (due t <=? now w) eqn:Hle; [|discriminate].
    injection Hstep as <-.
    apply Nat.leb_le in Hle.
    apply find_some in Hfind as [Hin _].
    unfold run.
    destruct (task t) as [|image] eqn:Htask.
    + specialize (Hdue t Hin). unfold is_FetchThumbnail in Hdue.
      rewrite Htask in Hdue. specialize (Hdue eq_refl). lia.
    + cbn [imageFormat_thumbnail drop_timer set_timers].
      pose proof (bufferToUrl_requests_nothing image
                    (imageFormat_thumbnail w) true) as Hlog.
      destruct (bufferToUrl image (imageFormat_thumbnail w) true)
        as [url logged].
      cbn [snd] in Hlog.
      repeat split.
      * unfold thumbnailRequests. cbn.
        now rewrite filter_app, Hlog, app_nil_r.
      * cbn. intros t' Ht' _. now apply filter_In in Ht' as [Ht' _].
  - destruct (has_thumbnailPromise p w); [|discriminate].
    injection Hstep as <-. repeat split.
    cbn. intros t Ht Hk.
    apply in_app_or in Ht as [Ht|[<-|[]]]; [assumption|discriminate].
  - destruct (has_thumbnailPromise p w); [|discriminate].
    injection Hstep as <-. repeat split. cbn. auto.
  - destruct (find_blobPromise p w) as [b|]; [|discriminate].
    injection Hstep as <-. unfold download_then.
    repeat split_match; cbn [fst]; repeat split; cbn; auto;
      unfold thumbnailRequests; cbn;
      rewrite filter_app; cbn; now rewrite app_nil_r.
  - destruct (find_blobPromise p w) as [b|]; [|discriminate].
    injection Hstep as <-. repeat split; cbn; auto.
    unfold thumbnailRequests; cbn.
    rewrite filter_app; cbn; now rewrite app_nil_r.
Qed.

(** A run in the background that ends before the time [D] at which every
    fetching callback is due. *)
Lemma background_run_before_due (D : nat) (es : list Event) (w w2 : World) :
  forallb background es = true -> steps es w = Some w2 ->
  (forall t, In t (timers w) -> is_FetchThumbnail t = true -> due t = D) ->
  now w2 < D ->
  thumbnailRequests w2 = thumbnailRequests w
  /\ wasInView (ctrl w2) = wasInView (ctrl w)
  /\ message (ctrl w2) = message (ctrl w).
Proof.
  revert w. induction es as [|e es IH]; intros w Hbg Hsteps HD Hnow;
    cbn in Hsteps.
  - injection Hsteps as <-. auto.
  - cbn in Hbg. apply andb_true_iff in Hbg as [Hbg_e Hbg_es].
    destruct (step e w) as [w1|] eqn:Hstep; [|discriminate].
    pose proof (step_now_mono _ _ _ Hstep) as Hmono1.
    pose proof (steps_now_mono _ _ _ Hsteps) as Hmono2.
    destruct (background_step_fetches_nothing e w w1 Hbg_e Hstep)
      as (Hreq & Hview & Hmsg & Htimers).
    { intros t Ht Hk. rewrite (HD t Ht Hk). lia. }
    destruct (IH w1 Hbg_es Hsteps) as (Hreq' & Hview' & Hmsg');
      [|assumption|].
    { intros t Ht Hk. apply HD; auto. }
    repeat split; congruence.
Qed.

(** A run in the background while no fetching callback waits. *)
Lemma background_run_without_fetch (es : list Event) (w w' : World) :
  forallb background es = true -> steps es w = Some w' ->
  (forall t, In t (timers w) -> is_FetchThumbnail t = false) ->
  thumbnailRequests w' = thumbnailRequests w.
Proof.
  revert w. induction es as [|e es IH]; intros w Hbg Hsteps Hnone;
    cbn in Hsteps.
  - now injection Hsteps as <-.
  - cbn in Hbg. apply andb_true_iff in Hbg as [Hbg_e Hbg_es].
    destruct (step e w) as [w1|] eqn:Hstep; [|discriminate].
    destruct (background_step_fetches_nothing e w w1 Hbg_e Hstep)
      as (Hreq & _ & _ & Htimers).
    { intros t Ht Hk. rewrite (Hnone t Ht) in Hk. discriminate. }
    rewrite <- Hreq. apply IH; [assumption|assumption|].
    intros t Ht. destruct (is_FetchThumbnail t) eqn:Hk; [|reflexivity].
    rewrite <- Hk. apply Hnone, Htimers; assumption.
Qed.

Lemma thumbnailInView_enter imageFormat m (th : Thumbnail) (w : World) :
  consistent imageFormat m w ->
  msg_thumbnail m = Some th -> img th = None ->
  wasInView (ctrl w) = false ->
  let w1 := thumbnailInView true w in
  thumbnailRequests w1 = thumbnailRequests w
  /\ wasInView (ctrl w1) = true
  /\ now w1 = now w
  /\ (forall t, In t (timers w1) -> is_FetchThumbnail t = true ->
      due t = now w + 1000).
Proof.
  intros Hw Hth Himg Hwas.
  assert (Hnone : forall t, In t (timers w) -> is_FetchThumbnail t = true ->
                    due t = now w + 1000).
  { intros t Ht Hk. destruct (one_fetch _ _ _ Hw t Ht Hk) as [_ Habs].
    congruence. }
  unfold thumbnailInView.
  rewrite (same_message _ _ _ Hw), Hth, Hwas, Himg.
  cbn [Bool.eqb negb ctrl on_ctrl thumbnail set_wasInView].
  destruct (thumbnail (ctrl w)); cbn; repeat split; auto.
  intros t Ht Hk. apply in_app_or in Ht as [Ht|[<-|[]]]; auto.
Qed.

(** The case of a message that announces a thumbnail without carrying
    its image. *)
Lemma short_stay_with_thumbnail imageFormat m r (th : Thumbnail)
    (w w2 : World) (es : list Event) :
  reachable imageFormat m r w ->
  msg_thumbnail m = Some th -> img th = None ->
  wasInView (ctrl w) = false ->
  forallb background es = true ->
  steps es (thumbnailInView true w) = Some w2 ->
  now w2 < now w + 1000 ->
  let w3 := thumbnailInView false w2 in
  thumbnailRequests w3 = thumbnailRequests w
  /\ thumbnailDownloading (ctrl w3) = false
  /\ thumbnail (ctrl w3) = None
  /\ (forall t, In t (timers w3) -> is_FetchThumbnail t = false)
  /\ forall es' w4,
       forallb background es' = true -> steps es' w3 = Some w4 ->
       thumbnailRequests w4 = thumbnailRequests w.
Proof.
  intros Hreach Hth Himg Hwas Hbg Hsteps Hnow w3.
  pose proof (reachable_consistent _ _ _ _ Hreach) as Hw.
  destruct (thumbnailInView_enter _ _ _ _ Hw Hth Himg Hwas)
    as (Hreq1 & Hview1 & Hnow1 & Hdue1).
  assert (Hreach1 : reachable imageFormat m r (thumbnailInView true w))
    by (apply (reachable_step _ _ _ w (CallThumbnailInView true));
        [assumption|reflexivity]).
  assert (Hreach2 : reachable imageFormat m r w2)
    by (eapply reachable_steps; eassumption).
  assert (Hreach3 : reachable imageFormat m r w3)
    by (apply (reachable_step _ _ _ w2 (CallThumbnailInView false));
        [assumption|reflexivity]).
  pose proof (reachable_consistent _ _ _ _ Hreach2) as Hw2.
  pose proof (reachable_consistent _ _ _ _ Hreach3) as Hw3.
  destruct (background_run_before_due (now w + 1000) es _ w2 Hbg Hsteps
              Hdue1 Hnow)
    as (Hreq2 & Hview2 & _).
  rewrite Hview1 in Hview2.
  assert (Heq : w3 = on_ctrl (set_thumbnail None)
                       (on_ctrl (set_thumbnailDownloading false)
                          (cancel (loadingThumbnailTimeout w2)
                             (on_ctrl (set_wasInView false) w2)))).
  { apply thumbnailInView_leave with th; [|assumption].
    now rewrite (same_message _ _ _ Hw2). }
  destruct (cancel_frame (loadingThumbnailTimeout w2)
              (on_ctrl (set_wasInView false) w2))
    as (Hc_ctrl & _ & Hc_trace & _).
  assert (Hreq3 : thumbnailRequests w3 = thumbnailRequests w).
  { rewrite Heq. unfold thumbnailRequests in *. cbn.
    rewrite Hc_trace. cbn. congruence. }
  assert (Hnone3 : forall t, In t (timers w3) -> is_FetchThumbnail t = false).
  { intros t Ht. destruct (is_FetchThumbnail t) eqn:Hk; [|reflexivity].
    destruct (one_fetch _ _ _ Hw3 t Ht Hk) as [_ Habs].
    rewrite Heq in Habs. cbn in Habs. rewrite Hc_ctrl in Habs.
    discriminate. }
  split; [exact Hreq3|].
  split; [now rewrite Heq|].
  split; [now rewrite Heq|].
  split; [exact Hnone3|].
  intros es' w4 Hbg' Hsteps'.
  rewrite <- Hreq3.
  now apply (background_run_without_fetch es' w3 w4).
Qed.

(** The case of a message without any thumbnail: [thumbnailInView] does
    nothing at all. *)
Lemma short_stay_without_thumbnail imageFormat m r (w w2 : World)
    (es : list Event) :
  reachable imageFormat m r w ->
  msg_thumbnail m = None ->
  forallb background es = true ->
  steps es (thumbnailInView true w) = Some w2 ->
  let w3 := thumbnailInView false w2 in
  thumbnailRequests w3 = thumbnailRequests w
  /\ thumbnailDownloading (ctrl w3) = false
  /\ thumbnail (ctrl w3) = None
  /\ (forall t, In t (timers w3) -> is_FetchThumbnail t = false)
  /\ forall es' w4,
       forallb background es' = true -> steps es' w3 = Some w4 ->
       thumbnailRequests w4 = thumbnailRequests w.
Proof.
  intros Hreach Hth Hbg Hsteps w3.
  assert (Hidle : forall b w', reachable imageFormat m r w' ->
                    thumbnailInView b w' = w').
  { intros b w' Hreach'. unfold thumbnailInView.
    now rewrite (same_message _ _ _ (reachable_consistent _ _ _ _ Hreach')),
      Hth. }
  assert (Hquiet : forall w', reachable imageFormat m r w' -> quiet w').
  { intros w'. apply never_fetching_quiet. intros th' Hth'. congruence. }
  rewrite (Hidle true w Hreach) in Hsteps.
  assert (Hreach2 : reachable imageFormat m r w2)
    by (eapply reachable_steps; eassumption).
  assert (Heq : w3 = w2) by apply (Hidle false w2 Hreach2).
  clearbody w3. subst w3.
  destruct (Hquiet w Hreach) as [_ Htimers _ _].
  destruct (Hquiet w2 Hreach2) as [Hflag2 Htimers2 _ Hhidden2].
  assert (Hreq2 : thumbnailRequests w2 = thumbnailRequests w).
  { apply (background_run_without_fetch es); [assumption|assumption|].
    rewrite Htimers. intros t []. }
  split; [exact Hreq2|].
  split; [exact Hflag2|].
  split.
  { apply Hhidden2. destruct (wasInView (ctrl w2)) eqn:Hview; [|reflexivity].
    destruct (view_needs_thumbnail _ _ _
                (reachable_consistent _ _ _ _ Hreach2) Hview Hth). }
  split; [rewrite Htimers2; intros t []|].
  intros es' w4 Hbg' Hsteps'. rewrite <- Hreq2.
  apply (background_run_without_fetch es'); [assumption|assumption|].
  rewrite Htimers2. intros t [].
Qed.

(** C6. The message carries no thumbnail image: its thumbnail has to be
    fetched, or it has none. The attachment
    comes into view and leaves it again before the delay of one second
    has passed, whatever happens in the background in between. Then no
    call of [requestThumbnail] has been made, [thumbnailDownloading] is
    [false], [thumbnail] is [null], no callback that would fetch a
    thumbnail is waiting, and whatever happens in the background later,
    no call of [requestThumbnail] is made. *)
Theorem short_stay_fetches_nothing imageFormat m r (w w2 : World)
    (es : list Event) :
  reachable imageFormat m r w ->
  (forall th, msg_thumbnail m = Some th -> img th = None) ->
  wasInView (ctrl w) = false ->
  forallb background es = true ->
  steps es (thumbnailInView true w) = Some w2 ->
  now w2 < now w + 1000 ->
  let w3 := thumbnailInView false w2 in
  thumbnailRequests w3 = thumbnailRequests w
  /\ thumbnailDownloading (ctrl w3) = false
  /\ thumbnail (ctrl w3) = None
  /\ (forall t, In t (timers w3) -> is_FetchThumbnail t = false)
  /\ forall es' w4,
       forallb background es' = true -> steps es' w3 = Some w4 ->
       thumbnailRequests w4 = thumbnailRequests w.
Proof.
  intros Hreach Hfetched Hwas Hbg Hsteps Hnow.
  destruct (msg_thumbnail m) as [th|] eqn:Hth.
  - apply (short_stay_with_thumbnail imageFormat m r th w w2 es);
      auto.
  - apply (short_stay_without_thumbnail imageFormat m r w w2 es);
      assumption.
Qed.

Lemma short_stay_fetches_nothing_witness :
  exists w w2,
    controller "image/jpeg" Samples.image_message Samples.contact = Some w
    /\ wasInView (ctrl w) = false
    /\ steps [Elapse 999] (thumbnailInView true w) = Some w2
    /\ now w2 < now w + 1000
    /\ thumbnailRequests (thumbnailInView false w2) = 0
    /\ thumbnailDownloading (ctrl (thumbnailInView false w2)) = false
    /\ thumbnail (ctrl (thumbnailInView false w2)) = None
    /\ forall es' w4,
         forallb background es' = true ->
         steps es' (thumbnailInView false w2) = Some w4 ->
         thumbnailRequests w4 = 0.
Proof.
  eexists. eexists.
  split; [reflexivity|].
  split; [reflexivity|].
  split; [vm_compute; reflexivity|].
  split; [vm_compute; lia|].
  match goal with
  | |- context [thumbnailInView false ?w2] =>
      destruct (short_stay_fetches_nothing "image/jpeg" Samples.image_message
                  Samples.contact
                  (mkWorld
                     (mkCtrl Samples.image_message Samples.contact "image"
                        false false false None false false true None
                        "image/jpeg" (Some (mkStyle "120px" "90px")) false
                        None None)
                     None "image/jpeg" 0 0 [] [] [] [])
                  w2 [Elapse 999])
        as (Hreq & Hflag & Hthumb & _ & Hever)
  end.
  - apply reachable_created. reflexivity.
  - intros th Hth. injection Hth as <-. reflexivity.
  - reflexivity.
  - reflexivity.
  - vm_compute. reflexivity.
  - vm_compute. lia.
  - split; [exact Hreq|].
    split; [exact Hflag|].
    split; [exact Hthumb|exact Hever].
Defined.

End MessageMediaFacts.

(** ** Properties of the text filters *)

Module TextFiltersFacts.

Import TextFilters.

Lemma length_append (s1 s2 : string) :
  String.length (s1 ++ s2) = (String.length s1 + String.length s2)%nat.
Proof. induction s1 as [|c s1 IH]; simpl; [reflexivity|]. now rewrite IH. Qed.

Lemma list_ascii_append (s1 s2 : string) :
  list_ascii_of_string (s1 ++ s2)
  = (list_ascii_of_string s1 ++ list_ascii_of_string s2)%list.
Proof. induction s1 as [|c s1 IH]; simpl; [reflexivity|]. now rewrite IH. Qed.

Lemma replace_each_append class by_ (s1 s2 : string) :
  replace_each class by_ (s1 ++ s2)
  = replace_each class by_ s1 ++ replace_each class by_ s2.
Proof.
  induction s1 as [|c s1 IH]; simpl; [reflexivity|].
  now rewrite IH, FiltersFacts.append_assoc.
Qed.

(** *** [escapeHtml] *)

Lemma escapeHtml_cons (c : ascii) (rest : string) :
  escapeHtml (Js.Val (String c rest)) = escaped c ++ escapeHtml (Js.Val rest).
Proof. reflexivity. Qed.

Lemma escaping (c : ascii) : Escaping c.
Proof.
  destruct (Ascii.eqb_spec c "&"); [subst; now apply EscAmp|].
  destruct (Ascii.eqb_spec c "<"); [subst; now apply EscLt|].
  destruct (Ascii.eqb_spec c ">"); [subst; now apply EscGt|].
  destruct (Ascii.eqb_spec c dquote); [subst; now apply EscQuot|].
  destruct (Ascii.eqb_spec c "'"); [subst; now apply EscApos|].
  assert (Hs : special c = false).
  { unfold special.
    repeat match goal with
           | H : c <> ?d |- _ =>
               apply Ascii.eqb_neq in H; rewrite H; clear H
           end.
    reflexivity. }
  apply EscKept; try assumption.
  unfold escaped. now rewrite Hs.
Qed.

(** X1. The escaped text holds none of [<], [>], the double quote and the
    apostrophe, whatever the text was, also for [null] and [undefined]. *)
Theorem escapeHtml_no_markup (text : Js.Nullable string) :
  forallb (fun c => negb (markup c)) (list_ascii_of_string (escapeHtml text))
  = true.
Proof.
  destruct text as [| |t]; try reflexivity.
  induction t as [|c t IH]; [reflexivity|].
  rewrite escapeHtml_cons, list_ascii_append, forallb_app, IH, andb_true_r.
  destruct (escaping c) as [? ->|? ->|? ->|? ->|? ->|Hs -> Ha Hl Hg Hq Hp];
    try reflexivity.
  cbn. unfold markup.
  apply Ascii.eqb_neq in Hl, Hg, Hq, Hp. now rewrite Hl, Hg, Hq, Hp.
Qed.

(** X2. Different texts have different escaped texts. *)
Theorem escapeHtml_injective (s1 s2 : string) :
  escapeHtml (Js.Val s1) = escapeHtml (Js.Val s2) -> s1 = s2.
Proof.
  revert s2. induction s1 as [|c1 s1 IH]; intros [|c2 s2] H.
  - reflexivity.
  - rewrite escapeHtml_cons in H.
    destruct (escaping c2) as [? E|? E|? E|? E|? E|? E]; rewrite E in H;
      discriminate H.
  - rewrite escapeHtml_cons in H.
    destruct (escaping c1) as [? E|? E|? E|? E|? E|? E]; rewrite E in H;
      discriminate H.
  - rewrite !escapeHtml_cons in H.
    destruct (escaping c1) as [ -> E1 | -> E1 | -> E1 | -> E1 | -> E1 | ? E1];
      destruct (escaping c2) as [ -> E2 | -> E2 | -> E2 | -> E2 | -> E2 | ? E2];
      rewrite ?E1, ?E2 in H; cbn in H;
      try discriminate H;
      try (injection H as H; f_equal; now apply IH);
      try (injection H as Hc H; congruence).
    injection H as Hc H. subst c2. f_equal. now apply IH.
Qed.

Lemma escapeHtml_injective_witness : "a<b & c" = "a<b & c".
Proof. apply (escapeHtml_injective "a<b & c" "a<b & c"). reflexivity. Defined.

Lemma escapeHtml_length (s : string) :
  (String.length s <= String.length (escapeHtml (Js.Val s)))%nat.
Proof.
  induction s as [|c s IH]; [apply Nat.le_refl|].
  rewrite escapeHtml_cons, length_append.
  destruct (escaping c) as [? ->|? ->|? ->|? ->|? ->|? ->];
    cbn [String.length Nat.add]; lia.
Qed.

(** X3. A text is its own escaped text exactly when it holds none of the five
    characters: on every other text escaping twice differs from escaping
    once, if only in length. *)
Theorem escapeHtml_fixed_iff (s : string) :
  escapeHtml (Js.Val s) = s
  <-> forallb (fun c => negb (special c)) (list_ascii_of_string s) = true.
Proof.
  induction s as [|c s IH].
  - split; reflexivity.
  - rewrite escapeHtml_cons. cbn [list_ascii_of_string forallb].
    pose proof (escapeHtml_length s) as Hlen.
    split.
    + intros H.
      assert (Hl : String.length (escaped c ++ escapeHtml (Js.Val s))
                   = String.length (String c s)) by now rewrite H.
      rewrite length_append in Hl. cbn [String.length] in Hl.
      destruct (escaping c) as [? E|? E|? E|? E|? E|Hs E];
        rewrite E in H, Hl; cbn [String.length Nat.add] in Hl; try lia.
      rewrite Hs. cbn. injection H as H. now apply IH.
    + intros H. apply andb_true_iff in H as [Hc Hs].
      apply negb_true_iff in Hc.
      unfold escaped. rewrite Hc. cbn. f_equal. now apply IH.
Qed.

(** *** [nlToBr] *)

Lemma replace_newlines (text : string) :
  forallb (fun c => negb (c =? newline)%char)
    (list_ascii_of_string
       (replace_each (Ascii.eqb newline) (fun _ => "<br>") text)) = true
  /\ String.length (replace_each (Ascii.eqb newline) (fun _ => "<br>") text)
     = (String.length text
        + 3 * List.length (filter (Ascii.eqb newline)
                             (list_ascii_of_string text)))%nat.
Proof.
  induction text as [|c text [IHc IHl]]; [split; reflexivity|].
  cbn [replace_each list_ascii_of_string filter].
  rewrite list_ascii_append, forallb_app, length_append, IHc, IHl.
  destruct (Ascii.eqb_spec newline c) as [<-|Hc].
  - split; [reflexivity|]. cbn [String.length List.length]. lia.
  - split; [|cbn [String.length]; lia].
    cbn. apply not_eq_sym, Ascii.eqb_neq in Hc. now rewrite Hc.
Qed.

(** X4. With [enabled] set or left out, the result holds no line feed and is
    three characters longer for each line feed of the text; with
    [enabled] false or [null] the text is returned as it is. *)
Theorem nlToBr_enabled (text : string) (enabled : Js.Nullable bool) :
  match enabled with
  | Js.Val true | Js.Undefined =>
      forallb (fun c => negb (c =? newline)%char)
        (list_ascii_of_string (nlToBr text enabled)) = true
      /\ String.length (nlToBr text enabled)
         = (String.length text
            + 3 * List.length (filter (Ascii.eqb newline)
                                 (list_ascii_of_string text)))%nat
  | Js.Val false | Js.Null => nlToBr text enabled = text
  end.
Proof.
  destruct enabled as [| |[|]]; try reflexivity; apply replace_newlines.
Qed.

(** *** [emptyToPlaceholder] *)

Lemma trimStart_blank (s : string) :
  trimStart s = EmptyString
  <-> forallb is_space (list_ascii_of_string s) = true.
Proof.
  induction s as [|c s IH]; [split; reflexivity|].
  cbn [trimStart list_ascii_of_string forallb].
  destruct (is_space c); cbn [andb]; [exact IH|].
  split; discriminate.
Qed.

Lemma trimStart_kept (s : string) :
  trimStart s = EmptyString
  \/ exists c rest, trimStart s = String c rest /\ is_space c = false.
Proof.
  induction s as [|c s IH]; [now left|].
  cbn [trimStart]. destruct (is_space c) eqn:Hc; [exact IH|].
  right. now exists c, s.
Qed.

Lemma trimEnd_kept (c : ascii) (rest : string) :
  is_space c = false -> trimEnd (String c rest) <> EmptyString.
Proof.
  intros Hc. cbn [trimEnd]. rewrite Hc.
  destruct (trimEnd rest); discriminate.
Qed.

(** [trim] leaves nothing exactly of a text of white space. *)
Lemma trim_blank (s : string) :
  String.length (trim s) = 0%nat
  <-> forallb is_space (list_ascii_of_string s) = true.
Proof.
  rewrite <- trimStart_blank. unfold trim.
  destruct (trimStart_kept s) as [->|(c & rest & -> & Hc)].
  - split; reflexivity.
  - pose proof (trimEnd_kept c rest Hc) as Hkept.
    destruct (trimEnd (String c rest)); [contradiction|].
    split; discriminate.
Qed.

(** X5. A text that holds a character other than white space is returned as
    it is; an empty text, a text of white space, [null] and [undefined]
    give the placeholder, which is [-] when none is passed. *)
Theorem emptyToPlaceholder_blank (text : Js.Nullable string)
    (placeholder : option string) :
  emptyToPlaceholder text placeholder
  = match text with
    | Js.Val t =>
        if forallb is_space (list_ascii_of_string t)
        then match placeholder with Some p => p | None => "-" end
        else t
    | Js.Undefined | Js.Null =>
        match placeholder with Some p => p | None => "-" end
    end.
Proof.
  destruct text as [| |t]; try reflexivity.
  unfold emptyToPlaceholder.
  destruct (forallb is_space (list_ascii_of_string t)) eqn:Hb.
  - apply trim_blank in Hb. now rewrite Hb.
  - destruct (String.length (trim t) =? 0)%nat eqn:Hl; [|reflexivity].
    apply Nat.eqb_eq, trim_blank in Hl. congruence.
Qed.

(** *** [duration] *)

Local Open Scope N_scope.

Lemma below_complete (k : nat) (n : N) :
  n < N.of_nat k -> In n (List.map N.of_nat (seq 0 k)).
Proof.
  intros Hn. rewrite <- (N2Nat.id n). apply in_map, in_seq. lia.
Qed.

(** A number below sixty is written, with its padding, in two digits. *)
Lemma two_digits (n : N) :
  n < 60 ->
  String.length ((if (n <? 10)%N then "0" else "")%string ++ decimal n) = 2%nat.
Proof.
  intros Hn.
  assert (Hall : forallb
            (fun k => (String.length
                         ((if (k <? 10)%N then "0" else "")%string ++ decimal k)
                       =? 2)%nat)
            (List.map N.of_nat (seq 0 60)) = true)
    by (vm_compute; reflexivity).
  rewrite forallb_forall in Hall.
  apply Nat.eqb_eq, Hall, (below_complete 60). exact Hn.
Qed.

(** A number written in one digit or none is below ten. *)
Lemma one_digit (n : N) :
  (String.length (decimal n) <= 1)%nat -> n < 10.
Proof.
  unfold decimal. intros Hlen.
  rewrite <- (DecimalN.Unsigned.of_to n).
  destruct (N.to_uint n) as [|d|d|d|d|d|d|d|d|d|d];
    [reflexivity|..];
    (destruct d; cbn in Hlen; [reflexivity|lia..]).
Qed.

Lemma read_padded (n : N) (zero : bool) :
  read_decimal ((if zero then "0" else "")%string ++ decimal n) = Some n.
Proof.
  unfold read_decimal, decimal.
  destruct zero; cbn [append NilEmpty.uint_of_string];
    rewrite NilEmpty.usu; cbn; now rewrite DecimalN.Unsigned.of_to.
Qed.

(** X6. For a whole number of seconds up to [MAX_SAFE_INTEGER], the text
    is [mm:ss]: two digits of seconds below sixty after the colon, at
    least two digits of minutes before it, and sixty times the minutes
    plus the seconds is the number that was passed. *)
Theorem duration_reads_back (seconds : N) :
  seconds <= MAX_SAFE_INTEGER ->
  exists (mm ss : string) (m s : N),
    duration seconds = (mm ++ ":" ++ ss)%string
    /\ (2 <= String.length mm)%nat
    /\ String.length ss = 2%nat
    /\ read_decimal mm = Some m
    /\ read_decimal ss = Some s
    /\ s < 60
    /\ 60 * m + s = seconds.
Proof.
  intros _.
  exists ((if (seconds / 60 <? 10)%N then "0" else "")%string
          ++ decimal (seconds / 60))%string,
         ((if (seconds mod 60 <? 10)%N then "0" else "")%string
          ++ decimal (seconds mod 60))%string,
         (seconds / 60), (seconds mod 60).
  assert (Hs : seconds mod 60 < 60) by (apply N.mod_lt; discriminate).
  split.
  { unfold duration. cbv zeta.
    now rewrite !FiltersFacts.append_assoc. }
  split.
  { destruct (seconds / 60 <? 10) eqn:Hm.
    - apply N.ltb_lt in Hm.
      pose proof (two_digits (seconds / 60)) as H2.
      rewrite (proj2 (N.ltb_lt _ _) Hm) in H2.
      rewrite H2; [apply Nat.le_refl|lia].
    - apply N.ltb_ge in Hm. cbn [append].
      destruct (Nat.le_gt_cases 2 (String.length (decimal (seconds / 60))))
        as [Hok|Hshort]; [exact Hok|].
      assert (Hlt : seconds / 60 < 10) by (apply one_digit; lia).
      lia. }
  split; [now apply two_digits|].
  split; [apply read_padded|].
  split; [apply read_padded|].
  split; [exact Hs|].
  symmetry. apply N.div_mod. discriminate.
Qed.

Lemma duration_reads_back_witness :
  exists (mm ss : string) (m s : N),
    duration 3725 = "62:05"%string
    /\ duration 3725 = (mm ++ ":" ++ ss)%string
    /\ (2 <= String.length mm)%nat
    /\ String.length ss = 2%nat
    /\ read_decimal mm = Some m
    /\ read_decimal ss = Some s
    /\ s < 60
    /\ 60 * m + s = 3725.
Proof.
  destruct (duration_reads_back 3725) as (mm & ss & m & s & H);
    [vm_compute; discriminate|].
  exists mm, ss, m, s. split; [reflexivity|exact H].
Defined.

Local Close Scope N_scope.

(** *** [messageStateIcon] *)

(** X7. The thumb icons stand for the acknowledgement and for nothing else,
    in both directions: the icon is [thumb_up] exactly for the state
    [user-ack] and [thumb_down] exactly for [user-dec]. A received
    message shows one of the thumbs or [reply], never the empty icon. *)
Theorem messageStateIcon_thumbs (m : StateMessage) :
  (messageStateIcon (Js.Val m) = "thumb_up" <-> state m = "user-ack")
  /\ (messageStateIcon (Js.Val m) = "thumb_down" <-> state m = "user-dec")
  /\ (isOutbox m = false ->
      messageStateIcon (Js.Val m) = "thumb_up"
      \/ messageStateIcon (Js.Val m) = "thumb_down"
      \/ messageStateIcon (Js.Val m) = "reply").
Proof.
  destruct m as [outbox st]. cbn [messageStateIcon isOutbox state].
  destruct outbox; cbn [negb orb];
    repeat match goal with
           | |- context [String.eqb st ?b] =>
               destruct (String.eqb_spec st b); [subst st|]; cbn [orb]
           end;
    repeat split; intros; try discriminate; try congruence; auto.
Qed.

(** *** [idsToNames] *)

Lemma displayNames_found (contacts : string -> option string)
    (ids : list string) :
  match displayNames contacts ids with
  | None => exists id, In id ids /\ contacts id = None
  | Some names => Forall2 (fun id n => contacts id = Some n) ids names
  end.
Proof.
  induction ids as [|id ids IH]; cbn [displayNames]; [constructor|].
  destruct (contacts id) as [n|] eqn:Hid.
  - destruct (displayNames contacts ids) as [names|].
    + now constructor.
    + destruct IH as (id' & Hin & Hnone).
      exists id'. split; [now right|assumption].
  - exists id. split; [now left|assumption].
Qed.

(** X8. The filter throws exactly when one of the ids has no contact; else
    it is the display names of the contacts, one for each id and in the
    order of the ids, joined by a comma and a space. *)
Theorem idsToNames_throws_iff (contacts : string -> option string)
    (ids : list string) :
  match idsToNames contacts ids with
  | None => exists id, In id ids /\ contacts id = None
  | Some text =>
      (forall id, In id ids -> contacts id <> None)
      /\ exists names,
           Forall2 (fun id n => contacts id = Some n) ids names
           /\ text = join ", " names
  end.
Proof.
  unfold idsToNames.
  pose proof (displayNames_found contacts ids) as Hfound.
  destruct (displayNames contacts ids) as [names|]; [|exact Hfound].
  split; [|now exists names].
  clear - Hfound. induction Hfound as [|id n ids names Hid _ IH].
  - intros id [].
  - intros id' [<-|Hin]; [congruence|now apply IH].
Qed.

End TextFiltersFacts.

(** ** Further properties of [bufferToUrl] *)

Module DataUriFacts.

Import Filters.

Lemma append_inv_head (p s1 s2 : string) : p ++ s1 = p ++ s2 -> s1 = s2.
Proof.
  induction p as [|c p IH]; cbn; intros H; [assumption|].
  injection H as H. now apply IH.
Qed.

(** X9. Two buffers that give the same resource for a MIME type hold the
    same octets: the data URI determines the buffer. *)
Theorem bufferToUrl_injective (b1 b2 : ArrayBuffer) (mimeType : string)
    (trust : bool) :
  bufferToUrl (Js.Val b1) mimeType trust
  = bufferToUrl (Js.Val b2) mimeType trust ->
  b1 = b2.
Proof.
  intros H.
  assert (Huri : resource_uri (fst (bufferToUrl (Js.Val b1) mimeType trust))
                 = resource_uri (fst (bufferToUrl (Js.Val b2) mimeType trust)))
    by now rewrite H.
  assert (Hb64 : Base64.btoa (binary_of b1) = Base64.btoa (binary_of b2)).
  { unfold bufferToUrl in Huri. destruct trust; cbn [fst resource_uri] in Huri;
      now do 3 apply append_inv_head in Huri. }
  assert (Hbin : Some (binary_of b1) = Some (binary_of b2))
    by now rewrite <- !Base64Facts.atob_btoa, Hb64.
  injection Hbin as Hbin.
  now rewrite <- (FiltersFacts.octets_of_binary_of b1), Hbin,
    FiltersFacts.octets_of_binary_of.
Qed.

Lemma bufferToUrl_injective_witness :
  [x01; x02]%byte = [x01; x02]%byte.
Proof.
  apply (bufferToUrl_injective [x01; x02]%byte [x01; x02]%byte "image/png"
           true).
  reflexivity.
Defined.

Lemma encode_length (l : list N) :
  List.length (Base64.encode l) = (4 * ((List.length l + 2) / 3))%nat.
Proof.
  induction l as [|a|a b|a b c rest IH] using Base64Facts.triples_ind;
    try reflexivity.
  cbn [Base64.encode List.length]. rewrite IH.
  replace (S (S (S (List.length rest))) + 2)%nat
    with (1 * 3 + (List.length rest + 2))%nat by lia.
  rewrite Nat.div_add_l by discriminate. lia.
Qed.

Lemma string_of_list_length (l : list ascii) :
  String.length (string_of_list_ascii l) = List.length l.
Proof. induction l as [|c l IH]; cbn; [reflexivity|]. now rewrite IH. Qed.

Lemma list_of_string_length (s : string) :
  List.length (list_ascii_of_string s) = String.length s.
Proof. induction s as [|c s IH]; cbn; [reflexivity|]. now rewrite IH. Qed.

(** X10. The data URI of a buffer of [n] octets has the thirteen characters
    of [data:] and [;base64,], the MIME type, and four characters for
    every three octets or part of three. *)
Theorem bufferToUrl_length (bytes : ArrayBuffer) (mimeType : string)
    (trust : bool) :
  String.length (resource_uri (fst (bufferToUrl (Js.Val bytes) mimeType trust)))
  = (13 + String.length mimeType + 4 * ((List.length bytes + 2) / 3))%nat.
Proof.
  assert (Hb64 : String.length (Base64.btoa (binary_of bytes))
                 = (4 * ((List.length bytes + 2) / 3))%nat).
  { unfold Base64.btoa.
    rewrite string_of_list_length, encode_length, length_map,
      list_of_string_length, FiltersFacts.binary_of_octets,
      string_of_list_length, length_map.
    reflexivity. }
  unfold bufferToUrl.
  destruct trust; cbn [fst resource_uri];
    rewrite !TextFiltersFacts.length_append, Hb64; cbn [String.length]; lia.
Qed.

End DataUriFacts.

(** ** Further properties of the controller *)

Module LifecycleFacts.

Import Filters MessageMedia MessageMediaFacts Lifecycle.

Local Open Scope nat_scope.

(** *** Visibility *)

Lemma thumbnailInView_records (inView : bool) (th : Thumbnail) (w : World) :
  msg_thumbnail (message (ctrl w)) = Some th ->
  wasInView (ctrl (thumbnailInView inView w)) = inView
  /\ message (ctrl (thumbnailInView inView w)) = message (ctrl w).
Proof.
  intros Hth. unfold thumbnailInView, schedule. rewrite Hth.
  destruct (Bool.eqb (wasInView (ctrl w)) inView) eqn:Hsame.
  - split; [now apply eqb_prop|reflexivity].
  - destruct inView; cbn [negb].
    + cbn [ctrl on_ctrl thumbnail set_wasInView].
      destruct (thumbnail (ctrl w)); [now split|].
      destruct (img th); [|now split].
      destruct (bufferToUrl _ _ _). now split.
    + cbv zeta. cbn [loadingThumbnailTimeout on_ctrl].
      destruct (loadingThumbnailTimeout w); now split.
Qed.

(** X11. Telling the controller twice in a row that the attachment is in view,
    or twice that it is not, is the same as telling it once: the second
    call changes nothing, in every world. *)
Theorem thumbnailInView_idempotent (inView : bool) (w : World) :
  thumbnailInView inView (thumbnailInView inView w)
  = thumbnailInView inView w.
Proof.
  destruct (msg_thumbnail (message (ctrl w))) as [th|] eqn:Hth.
  - destruct (thumbnailInView_records inView th w Hth) as [Hview Hmsg].
    set (w1 := thumbnailInView inView w) in *.
    unfold thumbnailInView at 1.
    rewrite Hmsg, Hth, Hview, Bool.eqb_reflx. reflexivity.
  - assert (Hidle : thumbnailInView inView w = w)
      by (unfold thumbnailInView; now rewrite Hth).
    now rewrite !Hidle.
Qed.

(** *** The fields that stay *)

Lemma step_created_fields (e : Event) (w w' : World) :
  step e w = Some w' ->
  created_fields (ctrl w') = created_fields (ctrl w)
  /\ imageFormat_thumbnail w' = imageFormat_thumbnail w
  /\ (downloaded (ctrl w) = true -> downloaded (ctrl w') = true)
  /\ (showThumbnail (ctrl w) = false -> showThumbnail (ctrl w') = false).
Proof.
  intros Hstep.
  destruct e as [inView| |ms|h|p image|p error|p blobInfo|p error];
    cbn [step] in Hstep.
  - injection Hstep as <-. unfold thumbnailInView, schedule.
    repeat split_match; cbn; auto.
    destruct (cancel_frame (loadingThumbnailTimeout w)
                (on_ctrl (set_wasInView inView) w))
      as (-> & _ & _ & _ & _ & ->).
    cbn. auto.
  - injection Hstep as <-. unfold download. split_match; cbn; auto.
  - injection Hstep as <-. cbn. auto.
  - destruct (find_timer h w) as [t|]; [|discriminate].
    destruct (due t <=? now w); [|discriminate].
    injection Hstep as <-. unfold run. repeat split_match; cbn; auto.
  - destruct (has_thumbnailPromise p w); [|discriminate].
    injection Hstep as <-. cbn. auto.
  - destruct (has_thumbnailPromise p w); [|discriminate].
    injection Hstep as <-. cbn. auto.
  - destruct (find_blobPromise p w) as [b|]; [|discriminate].
    injection Hstep as <-. unfold download_then.
    repeat split_match; cbn; auto.
  - destruct (find_blobPromise p w) as [b|]; [|discriminate].
    injection Hstep as <-. cbn. auto.
Qed.

(** X12. Whatever happens after the controller is created, the fields that
    the constructor assigns from the message ([message], [receiver],
    [type], [timeout], [uploading], [isAnimGif], [thumbnailFormat],
    [thumbnailStyle], [location]) keep their values: in particular
    [uploading] is never cleared. [downloaded], once set, stays set, and
    [showThumbnail], once cleared, stays cleared. *)
Theorem created_fields_stay (es : list Event) (w w' : World) :
  steps es w = Some w' ->
  created_fields (ctrl w') = created_fields (ctrl w)
  /\ (downloaded (ctrl w) = true -> downloaded (ctrl w') = true)
  /\ (showThumbnail (ctrl w) = false -> showThumbnail (ctrl w') = false).
Proof.
  revert w. induction es as [|e es IH]; intros w Hsteps; cbn in Hsteps.
  - injection Hsteps as <-. auto.
  - destruct (step e w) as [w1|] eqn:Hstep; [|discriminate].
    destruct (step_created_fields e w w1 Hstep) as (Hf & _ & Hd & Hs).
    destruct (IH w1 Hsteps) as (Hf' & Hd' & Hs').
    repeat split; [congruence|auto|auto].
Qed.

Lemma created_fields_stay_witness :
  exists w w',
    controller "image/jpeg" Samples.location_message Samples.contact = Some w
    /\ steps [CallDownload; BlobRejected 0 ReasonOther] w = Some w'
    /\ created_fields (ctrl w') = created_fields (ctrl w)
    /\ downloaded (ctrl w') = true.
Proof.
  eexists. eexists.
  split; [reflexivity|].
  split; [vm_compute; reflexivity|].
  match goal with
  | |- created_fields (ctrl ?w') = created_fields (ctrl ?w) /\ _ =>
      destruct (created_fields_stay
                  [CallDownload; BlobRejected 0 ReasonOther] w w')
        as (Hfields & Hdownloaded & _)
  end.
  - vm_compute. reflexivity.
  - split; [exact Hfields|]. apply Hdownloaded. reflexivity.
Defined.

(** *** The content path *)

(** X13. In every reachable world [downloading] is set exactly while a
    content fetch is outstanding, and then there is one fetch only; while
    it is outstanding [isDownloading] answers [true] whatever is bound to
    [showDownloading]. *)
Theorem downloading_iff_outstanding imageFormat m r (w : World)
    (showDownloading : option bool) :
  reachable imageFormat m r w ->
  (downloading (ctrl w) = true <-> exists b, blobPromises w = [b])
  /\ (downloading (ctrl w) = false <-> blobPromises w = [])
  /\ (blobPromises w <> [] ->
      isDownloading showDownloading (ctrl w) = Js.Val true).
Proof.
  intros Hreach.
  pose proof (one_blob _ _ _ (reachable_consistent _ _ _ _ Hreach)) as Hlen.
  unfold isDownloading.
  destruct (downloading (ctrl w)); destruct (blobPromises w) as [|b [|b' bs]];
    try discriminate Hlen;
    repeat split; intros; try discriminate; try congruence; eauto;
    try contradiction;
    match goal with
    | H : exists _, _ = _ |- _ => destruct H as [? H]; discriminate H
    end.
Qed.

Lemma downloading_iff_outstanding_witness :
  exists w,
    run_from "image/jpeg" Samples.image_message Samples.contact [CallDownload]
    = Some w
    /\ downloading (ctrl w) = true
    /\ blobPromises w = [mkBlobPromise 0 Samples.image_message]
    /\ isDownloading None (ctrl w) = Js.Val true.
Proof.
  eexists. split; [vm_compute; reflexivity|].
  match goal with
  | |- downloading (ctrl ?w) = true /\ _ =>
      destruct (downloading_iff_outstanding "image/jpeg"
                  Samples.image_message Samples.contact w None)
        as (_ & _ & Hbusy)
  end.
  - apply (run_from_reachable "image/jpeg" Samples.image_message
             Samples.contact [CallDownload]).
    vm_compute. reflexivity.
  - split; [reflexivity|]. split; [reflexivity|].
    apply Hbusy. discriminate.
Defined.

Lemma download_then_clears (captured_message : Message) (blobInfo : BlobInfo)
    (w : World) :
  downloading (ctrl (fst (download_then captured_message blobInfo w))) = false
  /\ downloaded (ctrl (fst (download_then captured_message blobInfo w)))
     = true
  /\ blobPromises (fst (download_then captured_message blobInfo w))
     = blobPromises w
  /\ blobRequests (fst (download_then captured_message blobInfo w))
     = blobRequests w.
Proof.
  unfold download_then, blobRequests.
  repeat split_match; cbn; repeat split;
    rewrite ?filter_app, ?length_app; cbn; lia.
Qed.

(** X14. The outstanding content fetch is settled, with whatever result:
    afterwards no fetch is outstanding and [downloading] is clear, so
    the next [download] is not ignored: it sets [downloading] and makes
    exactly one call of [requestBlob], for this message and receiver. *)
Theorem download_again_after_settling imageFormat m r (w w' : World)
    (p : nat) (e : Event) :
  reachable imageFormat m r w ->
  (exists blobInfo, e = BlobResolved p blobInfo)
  \/ (exists error, e = BlobRejected p error) ->
  step e w = Some w' ->
  downloading (ctrl w') = false
  /\ blobPromises w' = []
  /\ downloading (ctrl (download w')) = true
  /\ trace (download w')
     = (trace w' ++ [RequestBlob (msg_id m) (receiver (ctrl w'))])%list
  /\ List.length (blobPromises (download w')) = 1.
Proof.
  intros Hreach He Hstep.
  pose proof (reachable_consistent _ _ _ _ Hreach) as Hw.
  assert (Hreach' : reachable imageFormat m r w')
    by (eapply reachable_step; eassumption).
  pose proof (reachable_consistent _ _ _ _ Hreach') as Hw'.
  assert (Hidle : downloading (ctrl w') = false).
  { destruct He as [[blobInfo ->]|[error ->]]; cbn [step] in Hstep;
      destruct (find_blobPromise p w) as [b|]; try discriminate;
      injection Hstep as <-.
    - apply download_then_clears.
    - reflexivity. }
  pose proof (one_blob _ _ _ Hw') as Hlen. rewrite Hidle in Hlen.
  assert (Hnone : blobPromises w' = [])
    by (destruct (blobPromises w'); [reflexivity|discriminate]).
  split; [exact Hidle|]. split; [exact Hnone|].
  unfold download. rewrite Hidle. cbn.
  rewrite (same_message _ _ _ Hw'), Hnone. auto.
Qed.

Lemma download_again_after_settling_witness :
  exists w w',
    run_from "image/jpeg" Samples.image_message Samples.contact [CallDownload]
    = Some w
    /\ step (BlobRejected 0 (ReasonString "blobDownloadFailed")) w = Some w'
    /\ downloading (ctrl w') = false
    /\ blobRequests (download w') = 2.
Proof.
  eexists. eexists.
  split; [vm_compute; reflexivity|].
  split; [vm_compute; reflexivity|].
  match goal with
  | |- downloading (ctrl ?w') = false /\ _ =>
      destruct (download_again_after_settling "image/jpeg"
                  Samples.image_message Samples.contact
                  (download
                     (mkWorld
                        (mkCtrl Samples.image_message Samples.contact "image"
                           false false false None false false true None
                           "image/jpeg" (Some (mkStyle "120px" "90px")) false
                           None None)
                        None "image/jpeg" 0 0 [] [] [] []))
                  w' 0 (BlobRejected 0 (ReasonString "blobDownloadFailed")))
        as (Hidle & _ & _ & Htrace & _)
  end.
  - apply (run_from_reachable "image/jpeg" Samples.image_message
             Samples.contact [CallDownload]).
    vm_compute. reflexivity.
  - right. now exists (ReasonString "blobDownloadFailed").
  - vm_compute. reflexivity.
  - split; [exact Hidle|].
    unfold blobRequests. rewrite Htrace. reflexivity.
Defined.

(** X15. A download succeeds. Whatever the type of the message, [downloading]
    is cleared and [downloaded] is set, also for a type that has no
    action. An image goes to the media box with the caption of the
    message, or the empty caption when it has none; a video is saved
    under the suggested name; audio opens the player dialog; any other
    type than these and [file] is only logged. No alert is shown and the
    thumbnail is left as it is. *)
Theorem download_succeeds (w : World) (p : nat) (b : BlobPromise)
    (blobInfo : BlobInfo) :
  find_blobPromise p w = Some b ->
  exists w',
    step (BlobResolved p blobInfo) w = Some w'
    /\ downloading (ctrl w') = false
    /\ downloaded (ctrl w') = true
    /\ thumbnail (ctrl w') = thumbnail (ctrl w)
    /\ thumbnailDownloading (ctrl w') = thumbnailDownloading (ctrl w)
    /\ filter is_ShowAlert (trace w') = filter is_ShowAlert (trace w)
    /\ (msg_type (message (ctrl w)) = "image" ->
        trace w'
        = (trace w
           ++ [SetMedia (buffer blobInfo) (filename blobInfo)
                 (mimetype blobInfo)
                 (match msg_caption (captured b) with
                  | Some c => c
                  | None => ""
                  end)])%list)
    /\ (msg_type (message (ctrl w)) = "video" ->
        trace w'
        = (trace w ++ [SaveAs (buffer blobInfo) (filename blobInfo)])%list)
    /\ (msg_type (message (ctrl w)) = "audio" ->
        trace w' = (trace w ++ [ShowAudioDialog (buffer blobInfo)])%list)
    /\ (msg_type (message (ctrl w)) <> "image" ->
        msg_type (message (ctrl w)) <> "video" ->
        msg_type (message (ctrl w)) <> "file" ->
        msg_type (message (ctrl w)) <> "audio" ->
        trace w'
        = (trace w
           ++ [LogWarn "Ignored download request for message type"
                 (msg_type (message (ctrl w)))])%list).
Proof.
  intros Hp.
  rewrite (find_blobPromise_step_resolved p b blobInfo w Hp).
  eexists; split; [reflexivity|].
  unfold download_then.
  cbn [ctrl on_ctrl drop_blobPromise set_blobPromises message
         set_downloading set_downloaded].
  set (t := msg_type (message (ctrl w))).
  destruct (String.eqb_spec t "image") as [Hi|Hi];
    [|destruct (String.eqb_spec t "video") as [Hv|Hv];
      [|destruct (String.eqb_spec t "file") as [Hf|Hf];
        [destruct (msg_file (message (ctrl w))) as [f|];
         [destruct (file_type f =? "image/gif")%string|]
        |destruct (String.eqb_spec t "audio") as [Ha|Ha]]]];
    cbn; rewrite ?filter_app, ?app_nil_r;
    repeat split; intros; try reflexivity; try congruence;
    try (rewrite Hi in *; discriminate);
    try (rewrite Hv in *; discriminate);
    try (rewrite Hf in *; discriminate);
    try (rewrite Ha in *; discriminate).
Qed.

Lemma download_succeeds_witness :
  exists w w',
    run_from "image/jpeg" Samples.image_message Samples.contact [CallDownload]
    = Some w
    /\ step (BlobResolved 0 Samples.blob) w = Some w'
    /\ downloaded (ctrl w') = true
    /\ trace w'
       = [RequestBlob "m1" Samples.contact;
          SetMedia [x01; x02]%byte "blob.bin" "application/octet-stream"
            "caption"].
Proof.
  eexists.
  destruct (download_succeeds
              (download
                 (mkWorld
                    (mkCtrl Samples.image_message Samples.contact "image"
                       false false false None false false true None
                       "image/jpeg" (Some (mkStyle "120px" "90px")) false
                       None None)
                    None "image/jpeg" 0 0 [] [] [] []))
              0 (mkBlobPromise 0 Samples.image_message) Samples.blob eq_refl)
    as (w' & Hstep & _ & Hdone & _ & _ & _ & Himage & _).
  exists w'.
  split; [reflexivity|].
  split; [exact Hstep|].
  split; [exact Hdone|].
  rewrite (Himage eq_refl). reflexivity.
Defined.

(** *** The thumbnail path *)

Lemma filter_filter_length {A : Type} (f g : A -> bool) (l : list A) :
  List.length (filter g (filter f l)) <= List.length (filter g l).
Proof.
  induction l as [|a l IH]; cbn; [lia|].
  destruct (f a), (g a) eqn:Hg; cbn; rewrite ?Hg; cbn; lia.
Qed.

Lemma filter_drops_one {A : Type} (f g : A -> bool) (l : list A) (a : A) :
  In a l -> f a = false -> g a = true ->
  S (List.length (filter g (filter f l))) <= List.length (filter g l).
Proof.
  intros Hin Hf Hg. induction l as [|x l IH]; [destruct Hin|].
  destruct Hin as [->|Hin].
  - cbn. rewrite Hf, Hg. cbn.
    pose proof (filter_filter_length f g l). lia.
  - specialize (IH Hin). cbn.
    destruct (f x), (g x) eqn:Hgx; cbn; rewrite ?Hgx; cbn; lia.
Qed.

Lemma thumbnailRequests_app (es : list Effect) (w : World) :
  thumbnailRequests (emit es w)
  = thumbnailRequests w + List.length (filter is_RequestThumbnail es).
Proof.
  unfold thumbnailRequests. cbn. now rewrite filter_app, length_app.
Qed.

(** One step: a call of [requestThumbnail] uses up a waiting callback,
    and only coming into view queues one. *)
Lemma step_spends_fetchTimer (e : Event) (w w' : World) :
  step e w = Some w' ->
  thumbnailRequests w' + fetchTimers w'
  <= thumbnailRequests w + fetchTimers w + entries [e].
Proof.
  intros Hstep.
  destruct e as [inView| |ms|h|p image|p error|p blobInfo|p error];
    cbn [step] in Hstep.
  - injection Hstep as <-. unfold thumbnailInView, schedule.
    destruct (msg_thumbnail (message (ctrl w))) as [th|]; cbv iota; [|lia].
    destruct (Bool.eqb (wasInView (ctrl w)) inView); cbv iota; [lia|].
    destruct inView; cbn [negb].
    + cbn [ctrl on_ctrl thumbnail set_wasInView].
      destruct (thumbnail (ctrl w));
        [unfold thumbnailRequests, fetchTimers; cbn; lia|].
      destruct (img th).
      * cbn [imageFormat_thumbnail on_ctrl].
        pose proof (bufferToUrl_requests_nothing (Js.Val a)
                      (imageFormat_thumbnail w) true) as Hlog.
        destruct (bufferToUrl (Js.Val a) (imageFormat_thumbnail w) true)
          as [url logged].
        cbn [snd] in Hlog. unfold thumbnailRequests, fetchTimers. cbn.
        rewrite filter_app, Hlog, app_nil_r. lia.
      * unfold thumbnailRequests, fetchTimers. cbn.
        rewrite filter_app, length_app. cbn. lia.
    + cbv zeta. cbn [loadingThumbnailTimeout on_ctrl].
      unfold thumbnailRequests, fetchTimers.
      destruct (loadingThumbnailTimeout w) as [h|]; cbn; [|lia].
      pose proof (filter_filter_length
                    (fun t => negb (handle t =? h)) is_FetchThumbnail
                    (timers w)).
      lia.
  - injection Hstep as <-. unfold download, thumbnailRequests, fetchTimers.
    destruct (downloading (ctrl w)); cbn;
      rewrite filter_app, length_app; cbn; lia.
  - injection Hstep as <-. unfold thumbnailRequests, fetchTimers. cbn. lia.
  - destruct (find_timer h w) as [t|] eqn:Hfind; [|discriminate].
    destruct (due t <=? now w); [|discriminate].
    injection Hstep as <-.
    apply find_some in Hfind as [Hin Hh].
    unfold run. destruct (task t) as [|image] eqn:Htask.
    + assert (Hdrop : S (List.length
                           (filter is_FetchThumbnail
                              (filter (fun t' => negb (handle t' =? h))
                                 (timers w))))
                      <= List.length (filter is_FetchThumbnail (timers w))).
      { apply (filter_drops_one _ _ _ t Hin).
        - now rewrite Hh.
        - unfold is_FetchThumbnail. now rewrite Htask. }
      unfold thumbnailRequests, fetchTimers. cbn.
      rewrite filter_app, length_app. cbn. lia.
    + cbn [imageFormat_thumbnail drop_timer set_timers].
      pose proof (bufferToUrl_requests_nothing image
                    (imageFormat_thumbnail w) true) as Hlog.
      destruct (bufferToUrl image (imageFormat_thumbnail w) true)
        as [url logged].
      cbn [snd] in Hlog. unfold thumbnailRequests, fetchTimers. cbn.
      rewrite filter_app, Hlog, app_nil_r.
      pose proof (filter_filter_length
                    (fun t' => negb (handle t' =? h)) is_FetchThumbnail
                    (timers w)).
      lia.
  - destruct (has_thumbnailPromise p w); [|discriminate].
    injection Hstep as <-. unfold thumbnailRequests, fetchTimers. cbn.
    rewrite filter_app, length_app. cbn. lia.
  - destruct (has_thumbnailPromise p w); [|discriminate].
    injection Hstep as <-. unfold thumbnailRequests, fetchTimers. cbn. lia.
  - destruct (find_blobPromise p w) as [b|]; [|discriminate].
    injection Hstep as <-. unfold download_then, thumbnailRequests, fetchTimers.
    repeat split_match; cbn; rewrite ?filter_app, ?length_app; cbn; lia.
  - destruct (find_blobPromise p w) as [b|]; [|discriminate].
    injection Hstep as <-. unfold thumbnailRequests, fetchTimers. cbn.
    rewrite filter_app, length_app. cbn. lia.
Qed.

Lemma steps_spend_fetchTimers (es : list Event) (w w' : World) :
  steps es w = Some w' ->
  thumbnailRequests w' + fetchTimers w'
  <= thumbnailRequests w + fetchTimers w + entries es.
Proof.
  revert w. induction es as [|e es IH]; intros w Hsteps; cbn in Hsteps.
  - injection Hsteps as <-. unfold entries. cbn. lia.
  - destruct (step e w) as [w1|] eqn:Hstep; [|discriminate].
    pose proof (step_spends_fetchTimer e w w1 Hstep) as H1.
    pose proof (IH w1 Hsteps) as H2.
    assert (Hsplit : entries (e :: es) = entries [e] + entries es).
    { unfold entries. cbn. destruct e as [[|]| | | | | | |]; cbn; lia. }
    lia.
Qed.

(** X16. Over any run from the creation of the controller, the calls of
    [requestThumbnail] together with the callbacks still waiting to make
    one are never more than the calls of [thumbnailInView(true)]: no
    thumbnail is requested without the attachment having come into view,
    and one visit requests at most one. *)
Theorem thumbnail_requests_bounded imageFormat m r (es : list Event)
    (w : World) :
  run_from imageFormat m r es = Some w ->
  thumbnailRequests w + fetchTimers w <= entries es.
Proof.
  unfold run_from. intros Hrun.
  destruct (controller imageFormat m r) as [w0|] eqn:Hcreate; [|discriminate].
  pose proof (steps_spend_fetchTimers es w0 w Hrun) as Hbound.
  assert (Hzero : thumbnailRequests w0 + fetchTimers w0 = 0).
  { unfold controller in Hcreate.
    destruct (if _ : bool then _ else _); [|discriminate].
    injection Hcreate as <-. reflexivity. }
  lia.
Qed.

Lemma thumbnail_requests_bounded_witness :
  exists w,
    run_from "image/jpeg" Samples.image_message Samples.contact
      [CallThumbnailInView true; Elapse 400; CallThumbnailInView false;
       Elapse 400; CallThumbnailInView true; Elapse 1000; TimerFires 1]
    = Some w
    /\ thumbnailRequests w = 1
    /\ thumbnailRequests w + fetchTimers w <= 2.
Proof.
  eexists. split; [vm_compute; reflexivity|].
  split; [reflexivity|].
  apply (thumbnail_requests_bounded "image/jpeg" Samples.image_message
           Samples.contact
           [CallThumbnailInView true; Elapse 400; CallThumbnailInView false;
            Elapse 400; CallThumbnailInView true; Elapse 1000; TimerFires 1]).
  vm_compute. reflexivity.
Defined.

Lemma thumbnailInView_schedules imageFormat m (th : Thumbnail) (w : World) :
  consistent imageFormat m w ->
  msg_thumbnail m = Some th -> img th = None ->
  wasInView (ctrl w) = false -> thumbnail (ctrl w) = None ->
  thumbnailInView true w
  = set_loadingThumbnailTimeout (Some (fresh w))
      (set_fresh (S (fresh w))
         (set_timers
            (timers w ++ [mkTimer (fresh w) (now w + 1000) FetchThumbnail])
            (on_ctrl (set_thumbnailDownloading true)
               (on_ctrl (set_wasInView true) w)))).
Proof.
  intros Hw Hth Himg Hwas Hnull.
  unfold thumbnailInView.
  rewrite (same_message _ _ _ Hw), Hth, Hwas.
  cbn [Bool.eqb negb ctrl on_ctrl thumbnail set_wasInView].
  rewrite Hnull, Himg. reflexivity.
Qed.

Lemma has_last_promise (l : list nat) (p : nat) :
  existsb (Nat.eqb p) (l ++ [p]) = true.
Proof.
  rewrite existsb_app. cbn. rewrite Nat.eqb_refl.
  now rewrite orb_true_r.
Qed.

(** X17. The thumbnail of the message has to be fetched, none is held, and
    the attachment comes into view and stays. After the delay of one
    second the waiting callback calls [requestThumbnail] once; when the
    promise is resolved with an image and the callback handed to
    [$timeout] has run, [thumbnail] is the resource of that image in the
    thumbnail format and [thumbnailDownloading], set in between, is
    clear again. *)
Theorem thumbnail_is_fetched imageFormat m r (th : Thumbnail) (w : World)
    (image : Js.Nullable ArrayBuffer) :
  reachable imageFormat m r w ->
  msg_thumbnail m = Some th -> img th = None ->
  wasInView (ctrl w) = false -> thumbnail (ctrl w) = None ->
  thumbnailDownloading (ctrl (thumbnailInView true w)) = true
  /\ exists w',
       steps [CallThumbnailInView true; Elapse 1000; TimerFires (fresh w);
              ThumbnailResolved (S (fresh w)) image;
              TimerFires (S (S (fresh w)))] w
       = Some w'
       /\ thumbnail (ctrl w') = Some (fst (bufferToUrl image imageFormat true))
       /\ thumbnailDownloading (ctrl w') = false
       /\ wasInView (ctrl w') = true
       /\ thumbnailRequests w' = S (thumbnailRequests w)
       /\ fetchTimers w' = 0.
Proof.
  intros Hreach Hth Himg Hwas Hnull.
  pose proof (reachable_consistent _ _ _ _ Hreach) as Hw.
  pose proof (thumbnailInView_schedules _ _ _ _ Hw Hth Himg Hwas Hnull)
    as Henter.
  split; [now rewrite Henter|].
  (* the attachment comes into view and a second passes *)
  cbn [steps step]. rewrite Henter.
  (* the callback is due and runs *)
  unfold find_timer at 1.
  cbn [timers set_now set_loadingThumbnailTimeout set_fresh set_timers].
  rewrite (find_fresh_timer (timers w) (fresh w) (now w + 1000)
             FetchThumbnail (fresh_handles _ _ _ Hw)).
  cbn [due now set_now set_loadingThumbnailTimeout set_fresh set_timers
         on_ctrl].
  rewrite Nat.leb_refl.
  cbn [task run].
  set (w3 := set_fresh _ (set_thumbnailPromises _ _)).
  assert (Hreach3 : reachable imageFormat m r w3).
  { apply (reachable_steps imageFormat m r
             [CallThumbnailInView true; Elapse 1000; TimerFires (fresh w)]
             w w3 Hreach).
    cbn [steps step]. rewrite Henter.
    unfold find_timer.
    cbn [timers set_now set_loadingThumbnailTimeout set_fresh set_timers].
    rewrite (find_fresh_timer (timers w) (fresh w) (now w + 1000)
               FetchThumbnail (fresh_handles _ _ _ Hw)).
    cbn [due now set_now set_loadingThumbnailTimeout set_fresh set_timers
           on_ctrl].
    rewrite Nat.leb_refl. reflexivity. }
  pose proof (reachable_consistent _ _ _ _ Hreach3) as Hw3.
  assert (Hfresh3 : fresh w3 = S (S (fresh w))) by reflexivity.
  assert (Hpromises3 : thumbnailPromises w3
                       = (thumbnailPromises w ++ [S (fresh w)])%list)
    by reflexivity.
  assert (Hctrl3 : ctrl w3
                   = set_thumbnailDownloading true
                       (set_wasInView true (ctrl w))) by reflexivity.
  assert (Hreq3 : thumbnailRequests w3 = S (thumbnailRequests w)).
  { unfold thumbnailRequests. subst w3. cbn.
    rewrite filter_app, length_app. cbn. lia. }
  assert (Hnone3 : fetchTimers w3 = 0).
  { unfold fetchTimers. subst w3. cbn.
    rewrite filter_app. cbn. rewrite Nat.eqb_refl. cbn. rewrite app_nil_r.
    assert (Hnone : forall t, In t (timers w) -> is_FetchThumbnail t = false).
    { intros t Ht. destruct (is_FetchThumbnail t) eqn:Hk; [|reflexivity].
      destruct (one_fetch _ _ _ Hw t Ht Hk) as [_ Habs]. congruence. }
    clear - Hnone. induction (timers w) as [|t l IH]; [reflexivity|].
    cbn. destruct (negb (handle t =? fresh w)); cbn.
    - rewrite (Hnone t (or_introl eq_refl)). apply IH.
      intros t' Ht'. apply Hnone. now right.
    - apply IH. intros t' Ht'. apply Hnone. now right. }
  clearbody w3.
  (* the promise is resolved *)
  unfold has_thumbnailPromise. rewrite Hpromises3, has_last_promise.
  unfold thumbnail_then, schedule.
  cbn [snd fresh timers now drop_thumbnailPromise set_thumbnailPromises
         set_fresh set_timers].
  rewrite Hfresh3.
  (* the callback that stores the thumbnail runs *)
  unfold find_timer.
  cbn [timers set_fresh set_timers].
  rewrite (find_fresh_timer (timers w3) (S (S (fresh w))) (now w3 + 0)
             (StoreThumbnail image)).
  2:{ intros t Ht. rewrite <- Hfresh3. now apply (fresh_handles _ _ _ Hw3). }
  cbn [due now set_fresh set_timers]. rewrite Nat.add_0_r, Nat.leb_refl.
  eexists. split; [reflexivity|].
  unfold run. cbn [task].
  cbn [imageFormat_thumbnail drop_timer set_timers set_fresh
         drop_thumbnailPromise set_thumbnailPromises].
  rewrite (same_format _ _ _ Hw3).
  pose proof (bufferToUrl_requests_nothing image imageFormat true) as Hlog.
  destruct (bufferToUrl image imageFormat true) as [url logged].
  cbn [snd fst] in *.
  split; [reflexivity|]. split; [reflexivity|].
  split; [cbn; now rewrite Hctrl3|].
  split.
  - unfold thumbnailRequests in *. cbn.
    now rewrite filter_app, Hlog, app_nil_r.
  - unfold fetchTimers in *. cbn.
    rewrite filter_app. cbn. rewrite Nat.eqb_refl. cbn. rewrite app_nil_r.
    pose proof (filter_filter_length
                  (fun t => negb (handle t =? S (S (fresh w))))
                  is_FetchThumbnail (timers w3)).
    lia.
Qed.

Lemma thumbnail_is_fetched_witness :
  exists w w',
    controller "image/jpeg" Samples.image_message Samples.contact = Some w
    /\ steps [CallThumbnailInView true; Elapse 1000; TimerFires 0;
              ThumbnailResolved 1 (Js.Val [x01; x02]%byte); TimerFires 2] w
       = Some w'
    /\ thumbnail (ctrl w')
       = Some (TrustedResourceUrl "data:image/jpeg;base64,AQI=")
    /\ thumbnailDownloading (ctrl w') = false
    /\ thumbnailRequests w' = 1.
Proof.
  eexists.
  destruct (thumbnail_is_fetched "image/jpeg" Samples.image_message
              Samples.contact (mkThumbnail None 120 90)
              (mkWorld
                 (mkCtrl Samples.image_message Samples.contact "image"
                    false false false None false false true None
                    "image/jpeg" (Some (mkStyle "120px" "90px")) false
                    None None)
                 None "image/jpeg" 0 0 [] [] [] [])
              (Js.Val [x01; x02]%byte))
    as (_ & w' & Hsteps & Hthumb & Hflag & _ & Hreq & _).
  - apply reachable_created. reflexivity.
  - reflexivity.
  - reflexivity.
  - reflexivity.
  - reflexivity.
  - exists w'.
    split; [reflexivity|].
    split; [exact Hsteps|].
    split; [exact Hthumb|].
    split; [exact Hflag|exact Hreq].
Defined.

(** X18. In every reachable world, while [thumbnailDownloading] is set the
    attachment is in view and no thumbnail is held: the rendering layer
    never sees a thumbnail and its loading indicator together. *)
Theorem fetching_excludes_thumbnail imageFormat m r (w : World) :
  reachable imageFormat m r w ->
  thumbnailDownloading (ctrl w) = true ->
  thumbnail (ctrl w) = None /\ wasInView (ctrl w) = true.
Proof.
  induction 1 as [w Hcreate|w e w' Hreach IH Hstep].
  - unfold controller in Hcreate.
    destruct (if _ : bool then _ else _); [|discriminate].
    injection Hcreate as <-. discriminate.
  - destruct e as [inView| |ms|h|p image|p error|p blobInfo|p error];
      cbn [step] in Hstep.
    + injection Hstep as <-. unfold thumbnailInView, schedule.
      destruct (msg_thumbnail (message (ctrl w))) as [th|]; [|exact IH].
      destruct (Bool.eqb (wasInView (ctrl w)) inView) eqn:Hsame; [exact IH|].
      destruct inView; cbn [negb].
      * destruct (wasInView (ctrl w)) eqn:Hwas; [discriminate|].
        assert (Hidle : thumbnailDownloading (ctrl w) = false).
        { destruct (thumbnailDownloading (ctrl w)); [|reflexivity].
          now destruct (IH eq_refl). }
        cbn [ctrl on_ctrl thumbnail set_wasInView].
        destruct (thumbnail (ctrl w)) eqn:Hnull; [cbn; congruence|].
        destruct (img th); [|cbn; auto].
        destruct (bufferToUrl _ _ _). cbn. congruence.
      * cbv zeta. cbn [loadingThumbnailTimeout on_ctrl].
        destruct (loadingThumbnailTimeout w); cbn; discriminate.
    + injection Hstep as <-. unfold download.
      destruct (downloading (ctrl w)); exact IH.
    + injection Hstep as <-. exact IH.
    + destruct (find_timer h w) as [t|]; [|discriminate].
      destruct (due t <=? now w); [|discriminate].
      injection Hstep as <-. unfold run.
      destruct (task t); [exact IH|].
      destruct (bufferToUrl _ _ _). cbn. discriminate.
    + destruct (has_thumbnailPromise p w); [|discriminate].
      injection Hstep as <-. exact IH.
    + destruct (has_thumbnailPromise p w); [|discriminate].
      injection Hstep as <-. exact IH.
    + destruct (find_blobPromise p w) as [b|]; [|discriminate].
      injection Hstep as <-. unfold download_then.
      repeat split_match; exact IH.
    + destruct (find_blobPromise p w) as [b|]; [|discriminate].
      injection Hstep as <-. exact IH.
Qed.

Lemma fetching_excludes_thumbnail_witness :
  exists w,
    run_from "image/jpeg" Samples.image_message Samples.contact
      [CallThumbnailInView true; Elapse 1000; TimerFires 0]
    = Some w
    /\ thumbnailDownloading (ctrl w) = true
    /\ thumbnail (ctrl w) = None
    /\ wasInView (ctrl w) = true.
Proof.
  eexists. split; [vm_compute; reflexivity|].
  split; [reflexivity|].
  match goal with
  | |- thumbnail (ctrl ?w) = None /\ _ =>
      apply (fetching_excludes_thumbnail "image/jpeg" Samples.image_message
               Samples.contact w)
  end.
  - apply (run_from_reachable "image/jpeg" Samples.image_message
             Samples.contact
             [CallThumbnailInView true; Elapse 1000; TimerFires 0]).
    vm_compute. reflexivity.
  - reflexivity.
Defined.

(** *** Creation and the missing [file] *)

(** X19. The constructor throws exactly for a message of type [file] that is
    not uploading and has no [file]. Otherwise the controller is created
    idle, and [isAnimGif] holds exactly for a [file] message of subtype
    [image/gif] that is not uploading: an uploading GIF is not treated as
    animated, and as a [file] message it shows no thumbnail. *)
Theorem controller_created imageFormat (m : Message) (r : Receiver) :
  match controller imageFormat m r with
  | None =>
      msg_type m = "file" /\ msg_file m = None
      /\ forall t, msg_temporaryId m <> Js.Val t
  | Some w =>
      (msg_type m = "file" -> msg_file m = None ->
       exists t, msg_temporaryId m = Js.Val t)
      /\ ctrl_idle w
      /\ (uploading (ctrl w) = true <-> exists t, msg_temporaryId m = Js.Val t)
      /\ (isAnimGif (ctrl w) = true
          <-> uploading (ctrl w) = false /\ msg_type m = "file"
              /\ exists f, msg_file m = Some f /\ file_type f = "image/gif")
      /\ (showThumbnail (ctrl w) = true
          <-> msg_thumbnail m <> None
              /\ (msg_type m <> "file" \/ isAnimGif (ctrl w) = true))
  end.
Proof.
  unfold controller, ctrl_idle.
  destruct (msg_temporaryId m) as [| |t]; cbn [negb andb];
    destruct (String.eqb_spec (msg_type m) "file") as [Htype|Htype];
    cbn [andb];
    try destruct (msg_file m) as [f|] eqn:Hfile;
    try destruct (String.eqb_spec (file_type f) "image/gif") as [Hgif|Hgif];
    destruct (msg_thumbnail m) as [th|] eqn:Hth;
    cbn;
    repeat split; intros;
    repeat match goal with
           | H : _ /\ _ |- _ => destruct H
           | H : exists _, _ |- _ => destruct H
           | H : _ \/ _ |- _ => destruct H
           end;
    try discriminate; try congruence; eauto.
Qed.

(** X20. The callback of a successful download throws exactly for a message
    of type [file] without [file]. Even then [downloading] is cleared
    and [downloaded] set before it throws, and nothing is saved or
    shown. *)
Theorem download_then_throws (captured_message : Message)
    (blobInfo : BlobInfo) (w : World) :
  (snd (download_then captured_message blobInfo w) = TypeError
   <-> msg_type (message (ctrl w)) = "file"
       /\ msg_file (message (ctrl w)) = None)
  /\ (snd (download_then captured_message blobInfo w) = TypeError ->
      fst (download_then captured_message blobInfo w)
      = on_ctrl (set_downloaded true) (on_ctrl (set_downloading false) w)).
Proof.
  unfold download_then.
  cbn [ctrl on_ctrl message set_downloading set_downloaded].
  set (t := msg_type (message (ctrl w))).
  destruct (String.eqb_spec t "image") as [Hi|Hi];
    [|destruct (String.eqb_spec t "video") as [Hv|Hv];
      [|destruct (String.eqb_spec t "file") as [Hf|Hf];
        [destruct (msg_file (message (ctrl w))) as [f|];
         [destruct (file_type f =? "image/gif")%string|]
        |destruct (String.eqb_spec t "audio") as [Ha|Ha]]]];
    cbn [fst snd];
    repeat split; intros;
    repeat match goal with
           | H : _ /\ _ |- _ => destruct H
           end;
    try discriminate; try congruence.
Qed.

End LifecycleFacts.

(** ** Properties of the controller model of a group *)

Module GroupFacts.

Import Group.

Local Open Scope nat_scope.

Lemma find_action_in (k : nat) (l : list (nat * Action)) (a : Action) :
  find_action k l = Some a -> In (k, a) l.
Proof.
  unfold find_action. intros H.
  destruct (find _ l) as [[k' a']|] eqn:Hfind; [|discriminate].
  injection H as <-. apply find_some in Hfind as [Hin Hk].
  cbn in Hk. apply Nat.eqb_eq in Hk. now subst.
Qed.

Lemma drop_length (a : Action) (k : nat) (l : list (nat * Action)) :
  List.length
    (filter (fun x => Action_eqb (snd x) a)
       (filter (fun x => negb (fst x =? k)) l))
  <= List.length (filter (fun x => Action_eqb (snd x) a) l).
Proof. apply LifecycleFacts.filter_filter_length. Qed.

Lemma drop_found (a : Action) (k : nat) (l : list (nat * Action)) :
  find_action k l = Some a ->
  S (List.length
       (filter (fun x => Action_eqb (snd x) a)
          (filter (fun x => negb (fst x =? k)) l)))
  <= List.length (filter (fun x => Action_eqb (snd x) a) l).
Proof.
  intros Hfind. apply find_action_in in Hfind.
  apply (LifecycleFacts.filter_drops_one _ _ _ (k, a) Hfind).
  - cbn. now rewrite Nat.eqb_refl.
  - cbn. now destruct a.
Qed.

Lemma in_snoc {A : Type} (x y : A) (l : list A) :
  In x (l ++ [y]) -> In x l \/ x = y.
Proof.
  intros H. apply in_app_or in H as [H|[H|[]]]; [now left|now right].
Qed.

(** Membership in a log that a call was appended to. *)
Ltac snoc H :=
  cbn [log record show start on_model close_dialog settle] in H;
  apply in_snoc in H.

(** The counters after a call is appended. *)
Ltac count :=
  unfold calls, asked, open, pending, removed, show, start, record,
    close_dialog, settle, on_model in *;
  cbn [log dialogs operations model fst snd] in *;
  rewrite ?filter_app, ?length_app;
  cbn [filter is_call asks List.length Action_eqb String.eqb Ascii.eqb
         Bool.eqb app fst snd];
  try lia.

Lemma sound_created me mode group0 w :
  create me mode group0 = Some w -> sound group0 w.
Proof.
  unfold create. intros Hw.
  destruct mode, group0 as [g|]; try discriminate;
    injection Hw as <-;
    (constructor; cbn; try reflexivity; try discriminate;
     try (intros ? []); try (intros []); try lia;
     try (intros a _; destruct a; cbn; lia)).
Qed.

Lemma sound_frame group0 (w w' : GroupWorld) :
  sound group0 w ->
  group (model w') = group (model w) ->
  (isLoading (model w') = true -> isLoading (model w) = true) ->
  operations w' = operations w ->
  dialogs w' = dialogs w ->
  log w' = log w ->
  sound group0 w'.
Proof.
  intros [Hg Hl Hlv Hdl Hsy Hc Hr Hcl] Eg El Eo Ed Et.
  constructor; unfold calls, asked, open, pending, removed in *;
    rewrite ?Eg, ?Eo, ?Ed, ?Et; auto.
Qed.

Lemma sound_record group0 (w : GroupWorld) (c : Call) :
  sound group0 w -> plain c -> sound group0 (record [c] w).
Proof.
  intros [Hg Hl Hlv Hdl Hsy Hc Hr Hcl] (Hcall & Hask & Hrem & Herr).
  constructor; auto.
  - intros g Hin. snoc Hin; destruct Hin as [Hin|Hin]; [auto|].
    subst c. discriminate (Hcall Leave).
  - intros g Hin. snoc Hin; destruct Hin as [Hin|Hin]; [auto|].
    subst c. discriminate (Hcall Delete).
  - intros g Hin. snoc Hin; destruct Hin as [Hin|Hin]; [auto|].
    subst c. discriminate (Hcall Sync).
  - intros a Ha. specialize (Hc a Ha).
    unfold calls, asked, open, record in *. cbn [log dialogs] in *.
    rewrite !filter_app, !length_app. cbn [filter].
    rewrite (Hcall a), (Hask a). cbn. lia.
  - unfold calls, removed, pending, record in *. cbn [log operations] in *.
    rewrite !filter_app, !length_app. cbn [filter].
    rewrite (Hcall Delete).
    destruct c; cbn; try lia. now destruct (Hrem id).
  - intros Hin. snoc Hin; destruct Hin as [Hin|Hin]; [auto|].
    now symmetry in Hin.
Qed.

Lemma plain_log (text : string) (debug : bool) :
  text <> "not allowed to clean this contact" ->
  plain (if debug then Debug text else Error text).
Proof.
  intros Htext. destruct debug; repeat split;
    try (intros a; now destruct a); try discriminate.
  intros H. injection H as H. contradiction.
Qed.

Lemma sound_show group0 (w : GroupWorld) (a : Action)
    (title text ok cancel : string) :
  sound group0 w -> a <> Sync ->
  asks a (Confirm title text ok cancel) = true ->
  (forall b, b <> a -> asks b (Confirm title text ok cancel) = false) ->
  sound group0 (show (Confirm title text ok cancel) a w).
Proof.
  intros [Hg Hl Hlv Hdl Hsy Hc Hr Hcl] Ha Hasks Hother.
  constructor; auto.
  - intros g Hin. snoc Hin; destruct Hin as [Hin|Hin]; [auto|discriminate].
  - intros g Hin. snoc Hin; destruct Hin as [Hin|Hin]; [auto|discriminate].
  - intros g Hin. snoc Hin; destruct Hin as [Hin|Hin]; [auto|discriminate].
  - intros b Hb. specialize (Hc b Hb).
    unfold calls, asked, open, show in *.
    cbn [log dialogs] in *.
    rewrite !filter_app, !length_app.
    cbn [filter snd].
    destruct (Action_eqb a b) eqn:Hab.
    + assert (b = a) by (destruct a, b; (discriminate || reflexivity)).
      subst b. rewrite Hasks.
      replace (is_call a (Confirm title text ok cancel)) with false
        by now destruct a.
      cbn. lia.
    + assert (b <> a) by (intros ->; destruct a; discriminate).
      rewrite (Hother b H).
      replace (is_call b (Confirm title text ok cancel)) with false
        by now destruct b.
      cbn. lia.
  - count.
  - intros Hin. snoc Hin; destruct Hin as [Hin|Hin]; [auto|discriminate].
Qed.

Lemma sound_close group0 (w : GroupWorld) (d : nat) (a : Action) :
  sound group0 w -> find_action d (dialogs w) = Some a ->
  sound group0 (close_dialog d w)
  /\ (a <> Sync ->
      S (calls a (close_dialog d w) + open a (close_dialog d w))
      <= asked a (close_dialog d w)).
Proof.
  intros [Hg Hl Hlv Hdl Hsy Hc Hr Hcl] Hfind.
  split.
  - constructor; auto.
    intros b Hb. specialize (Hc b Hb).
    pose proof (drop_length b d (dialogs w)). count.
  - intros Ha. specialize (Hc a Ha).
    pose proof (drop_found a d (dialogs w) Hfind). count.
Qed.

Lemma sound_settle group0 (w : GroupWorld) (p : nat) (a : Action) :
  sound group0 w -> find_action p (operations w) = Some a ->
  sound group0 (on_model (set_isLoading false) (settle p w))
  /\ (a = Delete ->
      S (removed (on_model (set_isLoading false) (settle p w))
         + pending Delete (on_model (set_isLoading false) (settle p w)))
      <= calls Delete (on_model (set_isLoading false) (settle p w))).
Proof.
  intros [Hg Hl Hlv Hdl Hsy Hc Hr Hcl] Hfind.
  split.
  - constructor; auto; try discriminate.
    pose proof (drop_length Delete p (operations w)). count.
  - intros ->.
    pose proof (drop_found Delete p (operations w) Hfind). count.
Qed.

Lemma sound_removed group0 (w : GroupWorld) (id : string) :
  sound group0 w ->
  S (removed w + pending Delete w) <= calls Delete w ->
  sound group0 (record [Removed id] w).
Proof.
  intros [Hg Hl Hlv Hdl Hsy Hc Hr Hcl] Hroom.
  constructor; auto.
  - intros g Hin. snoc Hin; destruct Hin as [Hin|Hin]; [auto|discriminate].
  - intros g Hin. snoc Hin; destruct Hin as [Hin|Hin]; [auto|discriminate].
  - intros g Hin. snoc Hin; destruct Hin as [Hin|Hin]; [auto|discriminate].
  - intros a Ha. specialize (Hc a Ha). destruct a; count.
  - count.
  - intros Hin. snoc Hin; destruct Hin as [Hin|Hin]; [auto|discriminate].
Qed.

(** An operation is started: [isLoading] is set and the promise is
    outstanding. *)
Lemma sound_start group0 (w : GroupWorld) (a : Action) (c : Call) :
  sound group0 w ->
  is_call a c = true ->
  (a <> Sync -> S (calls a w + open a w) <= asked a w) ->
  match c with
  | CleanReceiverConversation _ => True
  | LeaveGroup g => group0 = Some g /\ grants canLeave g
  | DeleteGroup g => group0 = Some g /\ grants canDelete g
  | SyncGroup g => group0 = Some g /\ grants canSync g
  | _ => False
  end ->
  sound group0 (start c a (on_model (set_isLoading true) w)).
Proof.
  intros [Hg Hl Hlv Hdl Hsy Hc Hr Hcl] Hcall Hroom Hgranted.
  constructor; auto.
  - intros _. cbn. now destruct (operations w).
  - intros g Hin. snoc Hin; destruct Hin as [Hin|Hin]; [auto|].
    subst c. exact Hgranted.
  - intros g Hin. snoc Hin; destruct Hin as [Hin|Hin]; [auto|].
    subst c. exact Hgranted.
  - intros g Hin. snoc Hin; destruct Hin as [Hin|Hin]; [auto|].
    subst c. exact Hgranted.
  - intros b Hb. specialize (Hc b Hb).
    destruct a, c; try discriminate Hcall; try contradiction;
      destruct b; try congruence;
      try (specialize (Hroom ltac:(discriminate))); count.
  - destruct a, c; try discriminate Hcall; try contradiction; count.
  - intros Hin. snoc Hin; destruct Hin as [Hin|Hin]; [auto|].
    subst c. destruct a; discriminate.
Qed.

Lemma access_flag_grants (flag : Access -> option bool) group0 (w : GroupWorld)
    (g : GroupReceiver) :
  sound group0 w -> access_flag flag w = Some (g, true) ->
  group0 = Some g /\ grants flag g.
Proof.
  intros Hw Hflag. unfold access_flag in Hflag.
  rewrite (same_group _ _ Hw) in Hflag.
  destruct group0 as [g0|]; [|discriminate].
  destruct (access g0) as [a|] eqn:Ha; [|discriminate].
  injection Hflag as -> Hgranted.
  split; [reflexivity|]. exists a. split; [assumption|].
  unfold granted in Hgranted.
  destruct (flag a) as [[|]|]; (reflexivity || discriminate).
Qed.

Lemma sound_turn group0 (e : GroupEvent) (w w' : GroupWorld) :
  sound group0 w -> turn e w = Some w' -> sound group0 w'.
Proof.
  intros Hw Hstep.
  destruct e as [| | | |avatar|identities|callback|d|d|p|p];
    cbn [turn] in Hstep.
  - injection Hstep as <-. unfold clean.
    apply sound_show; [assumption|discriminate|reflexivity|].
    intros b Hb. destruct b; (reflexivity || congruence).
  - injection Hstep as <-. unfold leave.
    destruct (group (model w)) as [g|]; [|exact Hw].
    cbn [fst].
    apply sound_show; [assumption|discriminate|reflexivity|].
    intros b Hb. destruct b; (reflexivity || congruence).
  - injection Hstep as <-. unfold delete.
    apply sound_show; [assumption|discriminate|reflexivity|].
    intros b Hb. destruct b; (reflexivity || congruence).
  - injection Hstep as <-. unfold sync.
    destruct (access_flag canSync w) as [[g [|]]|] eqn:Hflag; cbn [fst].
    + apply sound_start; [assumption|reflexivity|congruence|].
      now apply (access_flag_grants canSync group0 w g).
    + apply (sound_record group0 w (Error "cannot sync group") Hw).
      apply (plain_log _ false). discriminate.
    + exact Hw.
  - injection Hstep as <-. unfold save.
    destruct (mode (model w)); cbn [fst];
      try (apply (sound_record group0 w (Error "not allowed to save group") Hw);
           apply (plain_log _ false); discriminate).
    + destruct (hasAvatarController (model w)); [|exact Hw].
      apply sound_record; [assumption|].
      repeat split; try (intros a; now destruct a); discriminate.
    + destruct (group (model w)) as [g|]; [|exact Hw].
      destruct (hasAvatarController (model w)); [|exact Hw].
      apply sound_record; [assumption|].
      repeat split; try (intros a; now destruct a); discriminate.
  - injection Hstep as <-.
    apply (sound_frame group0 w); auto.
  - injection Hstep as <-.
    apply (sound_frame group0 w); auto.
  - destruct (find_action d (dialogs w)) as [a|] eqn:Hfind; [|discriminate].
    injection Hstep as <-.
    destruct (sound_close group0 w d a Hw Hfind) as [Hclosed Hroom].
    destruct a; cbn [dialog_then fst].
    + unfold reallyClean. cbn [canClean canView negb].
      apply sound_start; [assumption|reflexivity|exact Hroom|exact I].
    + unfold reallyLeave.
      destruct (access_flag canLeave (close_dialog d w)) as [[g [|]]|]
        eqn:Hflag; cbn [fst].
      * apply sound_start; [assumption|reflexivity|exact Hroom|].
        now apply (access_flag_grants canLeave group0 (close_dialog d w) g).
      * apply (sound_record group0 _ (Error "cannot leave group") Hclosed).
        apply (plain_log _ false). discriminate.
      * exact Hclosed.
    + unfold reallyDelete.
      destruct (access_flag canDelete (close_dialog d w)) as [[g [|]]|]
        eqn:Hflag; cbn [fst].
      * apply sound_start; [assumption|reflexivity|exact Hroom|].
        now apply (access_flag_grants canDelete group0 (close_dialog d w) g).
      * apply (sound_record group0 _ (Error "can not delete group") Hclosed).
        apply (plain_log _ false). discriminate.
      * exact Hclosed.
    + exact Hclosed.
  - destruct (find_action d (dialogs w)) as [a|] eqn:Hfind; [|discriminate].
    injection Hstep as <-.
    destruct (sound_close group0 w d a Hw Hfind) as [Hclosed _].
    destruct a; cbn [dialog_cancelled]; try exact Hclosed;
      match goal with
      | |- sound _ (record [Debug ?text] _) =>
          apply (sound_record group0 _ (Debug text) Hclosed);
          apply (plain_log text true); discriminate
      end.
  - destruct (find_action p (operations w)) as [a|] eqn:Hfind; [|discriminate].
    injection Hstep as <-.
    destruct (sound_settle group0 w p a Hw Hfind) as [Hsettled Hroom].
    unfold operation_then.
    destruct a; cbn [fst]; try exact Hsettled.
    destruct (onRemovedCallback _); [|exact Hsettled].
    destruct (group _) as [g|]; [|exact Hsettled].
    cbn [fst]. apply sound_removed; [exact Hsettled|exact (Hroom eq_refl)].
  - destruct (find_action p (operations w)) as [a|] eqn:Hfind; [|discriminate].
    injection Hstep as <-.
    now destruct (sound_settle group0 w p a Hw Hfind) as [Hsettled _].
Qed.

Lemma attainable_sound me mode group0 (w : GroupWorld) :
  attainable me mode group0 w -> sound group0 w.
Proof.
  induction 1 as [w Hcreate|w e w' _ IH Hstep].
  - eapply sound_created; eassumption.
  - eapply sound_turn; eassumption.
Qed.

Lemma turns_attainable me mode group0 (es : list GroupEvent)
    (w w' : GroupWorld) :
  attainable me mode group0 w -> turns es w = Some w' ->
  attainable me mode group0 w'.
Proof.
  revert w. induction es as [|e es IH]; intros w Hw Hsteps; cbn in Hsteps.
  - now injection Hsteps as <-.
  - destruct (turn e w) as [w1|] eqn:Hstep; [|discriminate].
    eapply IH; [|eassumption]. eapply attainable_turn; eassumption.
Qed.

Lemma group_run_attainable me mode group0 (es : list GroupEvent)
    (w : GroupWorld) :
  group_run me mode group0 es = Some w -> attainable me mode group0 w.
Proof.
  unfold group_run.
  destruct (create me mode group0) as [w0|] eqn:Hcreate; [|discriminate].
  apply turns_attainable. now apply attainable_created.
Qed.

(** X21. While [isLoading] is set, an operation on [webClientService] is
    outstanding; and when an outstanding operation is settled, resolved
    or rejected, [isLoading] is clear afterwards. *)
Theorem loading_means_outstanding me mode group0 (w : GroupWorld) :
  attainable me mode group0 w ->
  (isLoading (model w) = true -> operations w <> [])
  /\ forall p w',
       turn (OperationResolved p) w = Some w'
       \/ turn (OperationRejected p) w = Some w' ->
       isLoading (model w') = false.
Proof.
  intros Hreach. split.
  - apply (loading_pending _ _ (attainable_sound _ _ _ _ Hreach)).
  - intros p w' [Hstep|Hstep]; cbn [turn] in Hstep;
      destruct (find_action p (operations w)) as [a|]; try discriminate;
      injection Hstep as <-; [|reflexivity].
    unfold operation_then.
    destruct a; cbn; try reflexivity.
    destruct (onRemovedCallback _); [|reflexivity].
    now destruct (group _).
Qed.

Lemma loading_means_outstanding_witness :
  exists w w',
    group_run "ECHOECHO" VIEW (Some sample_group) [CallSync] = Some w
    /\ isLoading (model w) = true
    /\ operations w <> []
    /\ turn (OperationRejected 0) w = Some w'
    /\ isLoading (model w') = false.
Proof.
  eexists. eexists.
  split; [vm_compute; reflexivity|].
  split; [reflexivity|].
  match goal with
  | |- operations ?w <> [] /\ _ =>
      destruct (loading_means_outstanding "ECHOECHO" VIEW (Some sample_group)
                  w (group_run_attainable "ECHOECHO" VIEW (Some sample_group)
                       [CallSync] w eq_refl))
        as [Hpending Hsettled]
  end.
  split; [apply Hpending; reflexivity|].
  split; [reflexivity|].
  apply (Hsettled 0). right. reflexivity.
Defined.

(** X22. A call of [leaveGroup], [deleteGroup] or [syncGroup] is only ever
    made for the group the model was created for, and only when that
    group grants [canLeave], [canDelete] or [canSync]. *)
Theorem operations_need_permission me mode group0 (w : GroupWorld)
    (g : GroupReceiver) :
  attainable me mode group0 w ->
  (In (LeaveGroup g) (log w) -> group0 = Some g /\ grants canLeave g)
  /\ (In (DeleteGroup g) (log w) -> group0 = Some g /\ grants canDelete g)
  /\ (In (SyncGroup g) (log w) -> group0 = Some g /\ grants canSync g).
Proof.
  intros Hreach.
  destruct (attainable_sound _ _ _ _ Hreach) as [_ _ Hlv Hdl Hsy _ _ _].
  auto.
Qed.

Lemma operations_need_permission_witness :
  exists w,
    group_run "ECHOECHO" VIEW (Some sample_group)
      [CallDelete; DialogConfirmed 0; CallLeave; DialogConfirmed 1]
    = Some w
    /\ In (LeaveGroup sample_group) (log w)
    /\ grants canLeave sample_group
    /\ ~ In (DeleteGroup sample_group) (log w).
Proof.
  eexists. split; [vm_compute; reflexivity|].
  match goal with
  | |- In _ (log ?w) /\ _ =>
      destruct (operations_need_permission "ECHOECHO" VIEW (Some sample_group)
                  w sample_group
                  (group_run_attainable "ECHOECHO" VIEW (Some sample_group)
                     [CallDelete; DialogConfirmed 0; CallLeave;
                      DialogConfirmed 1] w eq_refl))
        as (Hleave & Hdelete & _)
  end.
  assert (Hin : In (LeaveGroup sample_group)
                  [Confirm "messenger.GROUP_DELETE"
                     "messenger.GROUP_DELETE_REALLY" "common.OK"
                     "common.CANCEL";
                   Error "can not delete group";
                   Confirm "messenger.GROUP_LEAVE"
                     "messenger.GROUP_REALLY_LEAVE" "common.OK"
                     "common.CANCEL";
                   LeaveGroup sample_group])
    by (right; right; right; left; reflexivity).
  split; [exact Hin|].
  split; [exact (proj2 (Hleave Hin))|].
  intros Habs. destruct (Hdelete Habs) as [_ (a & Ha & Hflag)].
  injection Ha as <-. discriminate Hflag.
Defined.





(** X25. The guard of [reallyClean] never refuses: [canClean] is [canView],
    which is always [true]. The error [not allowed to clean this
    contact] is never logged, and confirming a dialog of [clean] always
    calls [cleanReceiverConversation] and sets [isLoading], whatever the
    mode and the group, also for a model without a group. *)
Theorem clean_is_never_refused me mode group0 (w : GroupWorld) :
  attainable me mode group0 w ->
  ~ In (Error "not allowed to clean this contact") (log w)
  /\ forall d,
       find_action d (dialogs w) = Some Clean ->
       exists w',
         turn (DialogConfirmed d) w = Some w'
         /\ log w' = (log w ++ [CleanReceiverConversation group0])%list
         /\ isLoading (model w') = true.
Proof.
  intros Hreach.
  pose proof (attainable_sound _ _ _ _ Hreach) as Hw.
  split; [apply (clean_allowed _ _ Hw)|].
  intros d Hfind. cbn [turn]. rewrite Hfind.
  eexists. split; [reflexivity|].
  cbn. now rewrite (same_group _ _ Hw).
Qed.

Lemma clean_is_never_refused_witness :
  exists w w',
    group_run "ECHOECHO" NEW None [CallClean] = Some w
    /\ turn (DialogConfirmed 0) w = Some w'
    /\ log w'
       = [Confirm "messenger.DELETE_THREAD" "messenger.DELETE_THREAD_MESSAGE"
            "common.YES" "common.CANCEL";
          CleanReceiverConversation None]
    /\ isLoading (model w') = true.
Proof.
  eexists.
  match goal with
  | |- exists w', group_run _ _ _ _ = Some ?w /\ _ =>
      destruct (clean_is_never_refused "ECHOECHO" NEW None
                  (mkGroupWorld
                     (mkModel [] None SubjectCreate false None NEW true false)
                     "ECHOECHO" [(0, Clean)] [] 1
                     [Confirm "messenger.DELETE_THREAD"
                        "messenger.DELETE_THREAD_MESSAGE" "common.YES"
                        "common.CANCEL"]))
        as [_ Hconfirm]
  end.
  - apply (group_run_attainable "ECHOECHO" NEW None [CallClean]). reflexivity.
  - destruct (Hconfirm 0 eq_refl) as (w' & Hstep & Htrace & Hloading).
    exists w'.
    split; [reflexivity|].
    split; [exact Hstep|].
    split; [exact Htrace|exact Hloading].
Defined.

(** X26. A new group has no members and is not valid; after the members are
    chosen it is valid exactly when one of them is not the user. *)
Theorem new_group_valid (me : string) (group0 : option GroupReceiver)
    (identities : list string) :
  exists w,
    create me NEW group0 = Some w
    /\ isValid w = false
    /\ (isValid (on_model (set_members identities) w) = true
        <-> exists identity, In identity identities /\ identity <> me).
Proof.
  eexists. split; [reflexivity|]. split; [reflexivity|].
  unfold isValid. cbn [model on_model set_members members myIdentity].
  rewrite Nat.ltb_lt. split.
  - intros Hlen.
    destruct (filter _ identities) as [|identity l] eqn:Hf; [cbn in Hlen; lia|].
    assert (Hin : In identity (filter (fun i => negb (i =? me)%string)
                                 identities))
      by (rewrite Hf; now left).
    apply filter_In in Hin as [Hin Hne].
    exists identity. split; [assumption|].
    apply negb_true_iff, String.eqb_neq in Hne. exact Hne.
  - intros (identity & Hin & Hne).
    assert (Hf : In identity (filter (fun i => negb (i =? me)%string)
                                identities)).
    { apply filter_In. split; [assumption|].
      now apply negb_true_iff, String.eqb_neq. }
    destruct (filter _ identities); [destruct Hf|cbn; lia].
Qed.

Lemma saved_snoc mode0 group0 (l : list Call) (c : Call) :
  Forall (saved_in_mode mode0 group0) l -> saved_in_mode mode0 group0 c ->
  Forall (saved_in_mode mode0 group0) (l ++ [c]).
Proof. intros Hl Hc. apply Forall_app. split; [assumption|now constructor]. Qed.

(** The three parts of [saved_attainable] after a turn. *)
Ltac saved :=
  repeat split; cbn [model mode group log show start record on_model
                       close_dialog settle set_members set_isLoading
                       set_onRemovedCallback fst];
  try congruence; try assumption;
  try (apply saved_snoc; [assumption|exact I]).

Lemma saved_attainable me mode0 group0 (w : GroupWorld) :
  attainable me mode0 group0 w ->
  mode (model w) = mode0 /\ group (model w) = group0
  /\ Forall (saved_in_mode mode0 group0) (log w).
Proof.
  induction 1 as [w Hcreate|w e w' _ (Hmode & Hgroup & Hlog) Hturn].
  - unfold create in Hcreate.
    destruct mode0, group0 as [g|]; try discriminate;
      injection Hcreate as <-; repeat split; constructor.
  - destruct e as [| | | |avatar|identities|callback|d|d|p|p];
      cbn [turn] in Hturn.
    + injection Hturn as <-. unfold clean. saved.
    + injection Hturn as <-. unfold leave.
      destruct (group (model w)) eqn:Hg; cbn [fst]; saved.
    + injection Hturn as <-. unfold delete. saved.
    + injection Hturn as <-. unfold sync.
      destruct (access_flag canSync w) as [[g [|]]|]; cbn [fst]; saved.
    + injection Hturn as <-. unfold save.
      destruct (mode (model w)) eqn:Hm; cbn [fst].
      * destruct (hasAvatarController (model w)); cbn [fst]; saved.
        apply saved_snoc; [assumption|]. cbn. congruence.
      * saved.
      * destruct (group (model w)) as [g|] eqn:Hg; [|saved].
        destruct (hasAvatarController (model w)); cbn [fst]; saved.
        apply saved_snoc; [assumption|]. cbn.
        split; [congruence|]. exists g. split; [congruence|reflexivity].
      * saved.
    + injection Hturn as <-. saved.
    + injection Hturn as <-. saved.
    + destruct (find_action d (dialogs w)) as [a|]; [|discriminate].
      injection Hturn as <-.
      destruct a; cbn [dialog_then fst];
        unfold reallyClean, reallyLeave, reallyDelete;
        cbn [canClean canView negb];
        try (destruct (access_flag _ _) as [[g [|]]|]; cbn [fst]);
        saved.
    + destruct (find_action d (dialogs w)) as [a|]; [|discriminate].
      injection Hturn as <-.
      destruct a; cbn [dialog_cancelled]; saved.
    + destruct (find_action p (operations w)) as [a|]; [|discriminate].
      injection Hturn as <-. unfold operation_then.
      destruct a; cbn [fst].
      * saved.
      * saved.
      * cbn [onRemovedCallback model on_model settle set_isLoading group].
        destruct (onRemovedCallback (model w)); [|saved].
        destruct (group (model w)) as [g|] eqn:Hg; saved.
      * saved.
    + destruct (find_action p (operations w)) as [a|]; [|discriminate].
      injection Hturn as <-. unfold operation_catch. saved.
Qed.

(** X27. [modifyGroup] is only ever called by a model in the mode [EDIT],
    with the id of its group; [createGroup] only by a model in the mode
    [NEW]. A model in the mode [VIEW] or [CHAT] never saves. *)
Theorem save_needs_mode me mode0 group0 (w : GroupWorld) (c : Call) :
  attainable me mode0 group0 w -> In c (log w) ->
  match c with
  | ModifyGroup id _ _ _ =>
      mode0 = EDIT /\ exists g, group0 = Some g /\ id = group_id g
  | CreateGroup _ _ _ => mode0 = NEW
  | _ => True
  end.
Proof.
  intros Hw Hin.
  destruct (saved_attainable _ _ _ _ Hw) as (_ & _ & Hlog).
  rewrite Forall_forall in Hlog. exact (Hlog c Hin).
Qed.

Lemma save_needs_mode_witness :
  exists w,
    group_run "ECHOECHO" EDIT (Some own_group)
      [CallOnChangeMembers ["ECHOECHO"; "ABCD1234"]; CallSave Js.Null]
    = Some w
    /\ log w
       = [ModifyGroup "g2" ["ECHOECHO"; "ABCD1234"] (Some "Family") Js.Null]
    /\ exists g, Some own_group = Some g /\ "g2" = group_id g.
Proof.
  eexists. split; [vm_compute; reflexivity|].
  split; [reflexivity|].
  match goal with
  | |- exists g, _ =>
      apply (save_needs_mode "ECHOECHO" EDIT (Some own_group)
               (mkGroupWorld
                  (mkModel ["ECHOECHO"; "ABCD1234"] (Some "Family")
                     (SubjectEdit "Family") false (Some own_group) EDIT true
                     false)
                  "ECHOECHO" [] [] 0
                  [ModifyGroup "g2" ["ECHOECHO"; "ABCD1234"] (Some "Family")
                     Js.Null])
               (ModifyGroup "g2" ["ECHOECHO"; "ABCD1234"] (Some "Family")
                  Js.Null))
  end.
  - apply (group_run_attainable "ECHOECHO" EDIT (Some own_group)
             [CallOnChangeMembers ["ECHOECHO"; "ABCD1234"];
              CallSave Js.Null]).
    reflexivity.
  - left. reflexivity.
Defined.

End GroupFacts.
